(** * YAML ("Yet Another Matrix Library"): the [Matrix<N>] class of matrix.hpp

    A shallow embedding of the class template [Matrix] and of the
    demonstration program main.cpp, followed by the properties of the
    specification.

    Conventions of the embedding.
    - [std::size_t] counts and indices are [nat]: every loop counter of
      the source stays below its bound, so none of them wraps.
    - [std::vector<T>] is [list T]; [v[i]] out of range is undefined
      behaviour in C++, which the embedding records as the outcome
      [Undefined].
    - [assert(c)] with [c] false terminates the program ([Abort]).
    - Matrix objects live in a store indexed by addresses, because
      [operator=] compares addresses ([this == &m]).
    - The element type [N] is any type of the concept [Number]; its
      default value, its [+] and its [!=] are the fields of a class. *)

From Stdlib Require Import PrimFloat Ascii String.
From stdpp Require Import base option list gmap strings pretty.

Open Scope nat_scope.

(** ** Outcomes of running a piece of the program *)

Inductive outcome (A : Type) : Type :=
| Ok (a : A)      (* normal completion with a value *)
| Abort           (* a failed [assert]: the program is terminated *)
| Undefined.      (* out-of-range access to a [std::vector] *)
Arguments Ok {A} a.
Arguments Abort {A}.
Arguments Undefined {A}.

#[global] Instance outcome_ret : MRet outcome := fun _ a => Ok a.
#[global] Instance outcome_bind : MBind outcome := fun _ _ f c =>
  match c with
  | Ok a => f a
  | Abort => Abort
  | Undefined => Undefined
  end.

(** [assert(c);] *)
Definition assert (c : bool) : outcome unit :=
  if c then Ok tt else Abort.

(** [v[i]] on a [std::vector] (or a [const] one): no bounds check. *)
Definition vec_at {A} (v : list A) (i : nat) : outcome A :=
  match v !! i with
  | Some x => Ok x
  | None => Undefined
  end.

(** [v.resize(n, x)] *)
Definition vec_resize {A} (v : list A) (n : nat) (x : A) : list A :=
  take n v ++ replicate (n - length v) x.

(** [for (std::size_t i = lo; i < lo + n; ++i) body], threading the objects
    the body writes to. *)
Fixpoint for_loop {St : Type} (lo n : nat) (body : nat -> St -> outcome St)
    (s : St) : outcome St :=
  match n with
  | 0 => Ok s
  | S k => s' ← body lo s; for_loop (S lo) k body s'
  end.

(** The same loop for a body that may [return v] from the enclosing
    function: [Some v] is that early return, [None] is falling out of the
    loop. *)
Fixpoint for_loop_return {R : Type} (lo n : nat)
    (body : nat -> outcome (option R)) : outcome (option R) :=
  match n with
  | 0 => Ok None
  | S k =>
      r ← body lo;
      match r with
      | Some v => Ok (Some v)
      | None => for_loop_return (S lo) k body
      end
  end.

(** ** The concept [Number] *)

Class Number (N : Type) : Type := {
  zero : N;               (* [N()], the value-initialised element *)
  add : N -> N -> N;      (* [x + y] *)
  neq : N -> N -> bool;   (* [x != y] *)
}.

(** [int]: 32-bit two's complement. Signed overflow is undefined in C++;
    the wrap-around is what the usual targets compute. *)
Definition int_wrap (z : Z) : Z :=
  ((z + 2147483648) `mod` 4294967296 - 2147483648)%Z.

#[global] Instance Number_int : Number Z := {
  zero := 0%Z;
  add x y := int_wrap (x + y);
  neq x y := negb (x =? y)%Z;
}.

(** [double]: IEEE 754 binary64. [x != y] is true when the operands are
    unordered or different. *)
#[global] Instance Number_double : Number float := {
  zero := PrimFloat.zero;
  add x y := PrimFloat.add x y;
  neq x y := negb (PrimFloat.eqb x y);
}.

(** What [out << x] writes for an element [x]. *)
Class Printable (N : Type) : Type := show : N -> string.

#[global] Instance Printable_int : Printable Z := fun z => pretty z.

(** The characters [' '] and ['\n']. *)
Definition sp : string := String " "%char EmptyString.
Definition nl : string := String "010"%char EmptyString.

(** ** The class [Matrix<N>] *)

Section Matrix.
Context {N : Type} `{Number N} `{Printable N}.

Record Matrix : Type := mkMatrix {
  _data : list (list N);
  _rows : nat;
  _cols : nat;
}.

(** [Matrix(std::size_t rows, std::size_t cols)]: [_data] starts empty and
    is resized with copies of a vector of [_cols] value-initialised
    elements. *)
Definition Matrix_new (rows cols : nat) : Matrix :=
  let data0 : list (list N) := [] in
  mkMatrix (vec_resize data0 rows (replicate cols zero)) rows cols.

(** [Matrix(std::size_t rows, std::size_t cols, N init_val)]: the same
    allocation, then both range-[for] loops overwrite every element. *)
Definition Matrix_fill (rows cols : nat) (init_val : N) : Matrix :=
  let data0 : list (list N) := [] in
  let data1 := vec_resize data0 rows (replicate cols zero) in
  mkMatrix (map (fun i => map (fun _ => init_val) i) data1) rows cols.

(** [Matrix(const Matrix& mat)] *)
Definition Matrix_copy (mat : Matrix) : Matrix :=
  mkMatrix (_data mat) (_rows mat) (_cols mat).

(** [Matrix(Matrix&& mat)]: the new object, and what is left in [mat]
    (a moved-from [std::vector] is empty; [std::move] of a [size_t] copies). *)
Definition Matrix_move (mat : Matrix) : Matrix * Matrix :=
  (mkMatrix (_data mat) (_rows mat) (_cols mat),
   mkMatrix [] (_rows mat) (_cols mat)).

Definition rows (self : Matrix) : nat := _rows self.
Definition cols (self : Matrix) : nat := _cols self.
Definition columns (self : Matrix) : nat := cols self.

(** [operator[](idx)], both overloads: the row at [idx]. *)
Definition op_index (self : Matrix) (idx : nat) : outcome (list N) :=
  _ ← assert (idx <? _rows self);
  vec_at (_data self) idx.

(** [t[r][c] = v;] through the mutable [operator[]] of [t]. *)
Definition assign_elem (t : Matrix) (r c : nat) (v : N) : outcome Matrix :=
  row ← op_index t r;
  _ ← vec_at row c;
  Ok (mkMatrix (<[r := <[c := v]> row]> (_data t)) (_rows t) (_cols t)).

(** [m[r][c]] read through [operator[]] of [m], as in [m[j][y]] and
    [rhs[j][y]]. *)
Definition read_elem (m : Matrix) (r c : nat) : outcome N :=
  row ← op_index m r;
  vec_at row c.

(** [transpose()] *)
Definition transpose (self : Matrix) : outcome Matrix :=
  let t := Matrix_new (cols self) (rows self) in
  for_loop 0 (rows self) (fun i t =>
    for_loop 0 (cols self) (fun j t =>
      di ← vec_at (_data self) i;
      v ← vec_at di j;
      assign_elem t j i v) t) t.

(** [T()] *)
Definition T (self : Matrix) : outcome Matrix := transpose self.

(** [seq_add(m)]. The counters [i, j, k] move together, and so do
    [x, y, z]. The right-hand side of the assignment is evaluated before
    [result[k][z]]. *)
Definition seq_add (self m : Matrix) : outcome Matrix :=
  _ ← assert (rows self =? rows m);
  _ ← assert (cols self =? cols m);
  let result := Matrix_new (rows self) (cols self) in
  for_loop 0 (rows self) (fun i result =>
    let j := i in let k := i in
    for_loop 0 (cols self) (fun x result =>
      let y := x in let z := x in
      di ← vec_at (_data self) i;
      a ← vec_at di x;
      mj ← op_index m j;
      b ← vec_at mj y;
      assign_elem result k z (add a b)) result) result.

(** [operator+(m)] *)
Definition op_plus (self m : Matrix) : outcome Matrix := seq_add self m.

(** [operator==(rhs)] *)
Definition op_eq (self rhs : Matrix) : outcome bool :=
  _ ← assert (rows self =? rows rhs);
  _ ← assert (cols self =? cols rhs);
  r ← for_loop_return 0 (rows self) (fun i =>
        let j := i in
        for_loop_return 0 (cols self) (fun x =>
          let y := x in
          di ← vec_at (_data self) i;
          a ← vec_at di x;
          rj ← op_index rhs j;
          b ← vec_at rj y;
          if neq a b then Ok (Some false) else Ok None));
  Ok (default true r).

(** [operator!=(rhs)] *)
Definition op_neq (self rhs : Matrix) : outcome bool :=
  e ← op_eq self rhs;
  Ok (negb e).

(** [operator<<(out, m)]: [out] is what the stream holds so far, the result
    is what it holds afterwards. *)
Definition print (out : string) (m : Matrix) : string :=
  foldl (fun out i =>
           foldl (fun out j => (out +:+ show j) +:+ sp) out i +:+ nl)
        out (_data m).

(** *** Objects and calls

    Matrix objects are held in a store; a call of the public interface
    names its objects by address. *)

Abbreviation store := (gmap nat Matrix).

Inductive call : Type :=
| CNew (r c : nat)                 (* [Matrix(r, c)] *)
| CFill (r c : nat) (v : N)        (* [Matrix(r, c, v)] *)
| CCopy (mat : nat)                (* [Matrix(mat)] *)
| CMove (mat : nat)                (* [Matrix(std::move(mat))] *)
| CRows (this : nat)
| CCols (this : nat)
| CColumns (this : nat)
| CTranspose (this : nat)
| CT (this : nat)
| CSeqAdd (this m : nat)
| CPlus (this m : nat)
| CIndex (this idx : nat)          (* [this[idx]] *)
| CIndexConst (this idx : nat)     (* [this[idx]], [const] overload *)
| CAssign (this m : nat)           (* [this = m] *)
| CEq (this rhs : nat)
| CNeq (this rhs : nat)
| CPrint (out : string) (m : nat). (* [out << m] *)

Inductive result : Type :=
| RMatrix (m : Matrix)             (* a matrix returned by value *)
| RSize (n : nat)
| RBool (b : bool)
| RRow (r : list N)                (* a [const] row *)
| RRowRef (this idx : nat)         (* a reference to row [idx] of [this] *)
| RRef (this : nat)                (* [*this] *)
| RStream (out : string).

(** Reading through a reference; a dangling one is undefined. *)
Definition load (h : store) (l : nat) : outcome Matrix :=
  match h !! l with
  | Some m => Ok m
  | None => Undefined
  end.

Definition run (c : call) (h : store) : outcome (result * store) :=
  match c with
  | CNew r c => Ok (RMatrix (Matrix_new r c), h)
  | CFill r c v => Ok (RMatrix (Matrix_fill r c v), h)
  | CCopy mat => m ← load h mat; Ok (RMatrix (Matrix_copy m), h)
  | CMove mat =>
      m ← load h mat;
      let '(created, moved_from) := Matrix_move m in
      Ok (RMatrix created, <[mat := moved_from]> h)
  | CRows this => self ← load h this; Ok (RSize (rows self), h)
  | CCols this => self ← load h this; Ok (RSize (cols self), h)
  | CColumns this => self ← load h this; Ok (RSize (columns self), h)
  | CTranspose this =>
      self ← load h this; t ← transpose self; Ok (RMatrix t, h)
  | CT this => self ← load h this; t ← T self; Ok (RMatrix t, h)
  | CSeqAdd this m =>
      self ← load h this; other ← load h m;
      r ← seq_add self other; Ok (RMatrix r, h)
  | CPlus this m =>
      self ← load h this; other ← load h m;
      r ← op_plus self other; Ok (RMatrix r, h)
  | CIndex this idx =>
      self ← load h this; _ ← op_index self idx; Ok (RRowRef this idx, h)
  | CIndexConst this idx =>
      self ← load h this; r ← op_index self idx; Ok (RRow r, h)
  | CAssign this m =>
      if this =? m then _ ← load h this; Ok (RRef this, h)
      else
        _ ← load h this; src ← load h m;
        Ok (RRef this,
            <[this := mkMatrix (_data src) (_rows src) (_cols src)]> h)
  | CEq this rhs =>
      self ← load h this; other ← load h rhs;
      b ← op_eq self other; Ok (RBool b, h)
  | CNeq this rhs =>
      self ← load h this; other ← load h rhs;
      b ← op_neq self other; Ok (RBool b, h)
  | CPrint out m => self ← load h m; Ok (RStream (print out self), h)
  end.

(** *** The data-model invariant and element lookup for statements *)

Definition wf (m : Matrix) : Prop :=
  length (_data m) = _rows m /\
  Forall (fun r => length r = _cols m) (_data m).

Definition elem (m : Matrix) (i j : nat) : option N :=
  r ← _data m !! i; r !! j.

Definition wf_store (h : store) : Prop := map_Forall (fun _ m => wf m) h.

(** The objects a call names, and whether all of them exist. *)
Definition call_objects (c : call) : list nat :=
  match c with
  | CNew _ _ | CFill _ _ _ => []
  | CCopy l | CMove l | CRows l | CCols l | CColumns l
  | CTranspose l | CT l | CIndex l _ | CIndexConst l _ | CPrint _ l => [l]
  | CSeqAdd l1 l2 | CPlus l1 l2 | CAssign l1 l2
  | CEq l1 l2 | CNeq l1 l2 => [l1; l2]
  end.

Definition live (c : call) (h : store) : Prop :=
  Forall (fun l => is_Some (h !! l)) (call_objects c).

(** The preconditions the interface states: equal shapes for addition and
    comparison, a row index below [rows()] for [operator[]]. *)
Definition same_shape (h : store) (l1 l2 : nat) : bool :=
  match h !! l1, h !! l2 with
  | Some a, Some b => (rows a =? rows b) && (cols a =? cols b)
  | _, _ => false
  end.

Definition row_in_range (h : store) (l idx : nat) : bool :=
  match h !! l with
  | Some a => idx <? rows a
  | None => false
  end.

(** The move constructor, and the calls that assign to the object at [l]. *)
Definition is_move (c : call) : bool :=
  match c with CMove _ => true | _ => false end.

Definition assigns (c : call) (l : nat) : bool :=
  match c with CAssign this _ => this =? l | _ => false end.

Definition pre (c : call) (h : store) : bool :=
  match c with
  | CSeqAdd l1 l2 | CPlus l1 l2 | CEq l1 l2 | CNeq l1 l2 => same_shape h l1 l2
  | CIndex l idx | CIndexConst l idx => row_in_range h l idx
  | _ => true
  end.

End Matrix.

Arguments Matrix N : clear implicits.
Arguments call N : clear implicits.
Arguments result N : clear implicits.

(** ** The demonstration program main.cpp *)

(** [std::cout << b] for a [bool] (no [boolalpha]). *)
Definition show_bool (b : bool) : string := if b then "1" else "0".

(** [main()]: the exit status and what was written to [std::cout]. *)
Definition main : outcome (Z * string) :=
  let cout := "" in
  let a : Matrix Z := Matrix_fill 2 2 4%Z in
  let b : Matrix Z := Matrix_fill 2 2 8%Z in
  let c : Matrix Z := Matrix_fill 2 2 12%Z in
  res ← seq_add a b;
  e ← op_eq res c;
  let cout := (cout +:+ show_bool e) +:+ nl in
  let cout := print cout a +:+ nl in
  let cout := cout +:+ "Result:" +:+ nl in
  let cout := print cout res +:+ nl in
  let cout := cout +:+ "C:" +:+ nl in
  let cout := print cout c +:+ nl in
  Ok (0%Z, cout).

(** ** The textual dump as the specification words it

    One line per row; every element of the row followed by one space; the
    line closed by a newline. *)

(** The pieces of text one after the other *)
Definition cat (l : list string) : string := foldr String.append "" l.

Definition row_line {N} `{Printable N} (r : list N) : string :=
  cat (map (fun x => show x +:+ sp) r) +:+ nl.

Definition dump {N} `{Printable N} (m : Matrix N) : string :=
  cat (map row_line (_data m)).

(** Whether the character [c] occurs in [s] *)
Fixpoint has_char (c : ascii) (s : string) : bool :=
  match s with
  | EmptyString => false
  | String d s' => bool_decide (c = d) || has_char c s'
  end.

(** ** Concrete matrices and stores used in the statements *)

(** A float matrix holding a NaN *)
Definition nan_matrix : Matrix float := Matrix_fill 1 1 nan.

(** Two objects of different shapes: a [1 x 1] matrix at address 0 and a
    [2 x 3] matrix at address 1. *)
Definition two_shapes : gmap nat (Matrix Z) :=
  <[0 := Matrix_new 1 1]> (<[1 := Matrix_new 2 3]> ∅).

(** What main.cpp writes *)
Definition main_stdout : string :=
  cat [ "1"; nl;
        "4 4 "; nl; "4 4 "; nl; nl;
        "Result:"; nl;
        "12 12 "; nl; "12 12 "; nl; nl;
        "C:"; nl;
        "12 12 "; nl; "12 12 "; nl; nl ].

(** The matrices of main.cpp *)
Definition m4 : Matrix Z := Matrix_fill 2 2 4%Z.
Definition m8 : Matrix Z := Matrix_fill 2 2 8%Z.
Definition m12 : Matrix Z := Matrix_fill 2 2 12%Z.

(** A matrix with three rows and no column *)
Definition m30 : Matrix Z := Matrix_new 3 0.

(** * Properties *)

(** ** Loops *)

Lemma for_loop_inv {St} (P : nat -> St -> Prop) (body : nat -> St -> outcome St)
    (n lo : nat) (s : St) :
  P lo s ->
  (forall i s, lo <= i < lo + n -> P i s ->
     exists s', body i s = Ok s' /\ P (S i) s') ->
  exists s', for_loop lo n body s = Ok s' /\ P (lo + n) s'.
Proof.
  revert lo s. induction n as [|n IH]; intros lo s HP Hstep; simpl.
  - exists s. by rewrite Nat.add_0_r.
  - destruct (Hstep lo s) as (s1 & -> & HP1); [lia | done |]. simpl.
    destruct (IH (S lo) s1) as (s2 & Hrun & HP2); [done | |].
    + intros i s' Hi. apply Hstep. lia.
    + exists s2. split; [done |]. by replace (lo + S n) with (S lo + n) by lia.
Qed.

(** A loop whose body never fails either falls through, every iteration
    having answered [None], or returns what the first iteration that
    answered [Some v] answered. *)
Lemma for_loop_return_spec {R} (body : nat -> outcome (option R))
    (n lo : nat) :
  (forall i, lo <= i < lo + n -> exists r, body i = Ok r) ->
  (for_loop_return lo n body = Ok None /\
   forall i, lo <= i < lo + n -> body i = Ok None) \/
  (exists i v, lo <= i < lo + n /\ body i = Ok (Some v) /\
     for_loop_return lo n body = Ok (Some v)).
Proof.
  revert lo. induction n as [|n IH]; intros lo Hok; simpl.
  - left. split; [done |]. intros; lia.
  - destruct (Hok lo) as ([v|] & Hb); [lia | |]; rewrite Hb; simpl.
    + right. exists lo, v. split; [lia | done].
    + destruct (IH (S lo)) as [[Hrun Hall] | (i & v & Hi & Hbi & Hrun)].
      * intros i Hi. apply Hok. lia.
      * left. split; [done |]. intros i Hi.
        destruct (decide (i = lo)) as [-> | Hne]; [done |]. apply Hall. lia.
      * right. exists i, v. split; [lia | done].
Qed.

Section Properties.
Context {N : Type} `{Number N} `{Printable N}.
Implicit Types (m a b t : Matrix N) (i j : nat).

(** ** Element access on a matrix that satisfies the invariant *)

Lemma wf_lookup m i :
  wf m -> i < _rows m ->
  exists r, _data m !! i = Some r /\ length r = _cols m.
Proof.
  intros [Hlen Hall] Hi.
  destruct (lookup_lt_is_Some_2 (_data m) i) as [r Hr]; [lia |].
  exists r. split; [done |].
  by apply (Forall_lookup_1 _ _ _ _ Hall Hr).
Qed.

Lemma wf_elem m i j :
  wf m -> i < _rows m -> j < _cols m -> is_Some (elem m i j).
Proof.
  intros Hwf Hi Hj. destruct (wf_lookup m i Hwf Hi) as (r & Hr & Hlen).
  unfold elem. rewrite Hr. simpl. apply lookup_lt_is_Some_2. lia.
Qed.

Lemma elem_Some_bounds m i j x :
  wf m -> elem m i j = Some x -> i < _rows m /\ j < _cols m.
Proof.
  intros [Hlen Hall] He. unfold elem in He.
  destruct (_data m !! i) as [r|] eqn:Hr; [|done]. simpl in He.
  split.
  - rewrite <- Hlen. by eapply lookup_lt_Some.
  - rewrite <- (Forall_lookup_1 _ _ _ _ Hall Hr). by eapply lookup_lt_Some.
Qed.

(** [_data[i][j]], read directly *)
Lemma read_data m i j x :
  elem m i j = Some x ->
  exists di, vec_at (_data m) i = Ok di /\ vec_at di j = Ok x.
Proof.
  unfold elem, vec_at. destruct (_data m !! i) as [r|]; [|done]. simpl.
  intros Hx. exists r. by rewrite Hx.
Qed.

(** [m[i][j]], read through [operator[]] *)
Lemma read_index m i j x :
  i < _rows m -> elem m i j = Some x ->
  exists mi, op_index m i = Ok mi /\ vec_at mi j = Ok x.
Proof.
  intros Hi. unfold elem, op_index, vec_at, assert.
  destruct (Nat.ltb_spec i (_rows m)); [|lia]. simpl.
  destruct (_data m !! i) as [r|]; [|done]. simpl.
  intros Hx. exists r. by rewrite Hx.
Qed.

(** Two matrices of one shape with the same elements are the same object
    value. *)
Lemma wf_ext a b :
  wf a -> wf b -> _rows a = _rows b -> _cols a = _cols b ->
  (forall i j, i < _rows a -> j < _cols a -> elem a i j = elem b i j) ->
  a = b.
Proof.
  intros Ha Hb Hr Hc He.
  destruct a as [da ra ca], b as [db rb cb]; simpl in *. subst rb cb.
  f_equal. apply list_eq. intros i.
  destruct (decide (i < ra)) as [Hi | Hi].
  - destruct (wf_lookup _ i Ha Hi) as (x & Hx & Hlx).
    destruct (wf_lookup _ i Hb Hi) as (y & Hy & Hly). simpl in *.
    rewrite Hx, Hy. f_equal. apply list_eq. intros j.
    destruct (decide (j < ca)) as [Hj | Hj].
    + specialize (He i j Hi Hj). unfold elem in He. simpl in He.
      by rewrite Hx, Hy in He.
    + rewrite !lookup_ge_None_2; [done | lia | lia].
  - destruct Ha as [Ha _], Hb as [Hb _]. simpl in *.
    rewrite !lookup_ge_None_2; [done | lia | lia].
Qed.

End Properties.

Section Construction.
Context {N : Type} `{Number N}.
Implicit Types (m a b t : Matrix N) (i j : nat).

Lemma vec_resize_nil {A} (n : nat) (x : A) : vec_resize [] n x = replicate n x.
Proof. unfold vec_resize. by rewrite take_nil, Nat.sub_0_r. Qed.

Lemma Matrix_new_data (r c : nat) :
  _data (Matrix_new r c : Matrix N) = replicate r (replicate c zero).
Proof. unfold Matrix_new. simpl. apply vec_resize_nil. Qed.

Lemma Matrix_fill_data (r c : nat) (v : N) :
  _data (Matrix_fill r c v) = replicate r (replicate c v).
Proof.
  unfold Matrix_fill. simpl. rewrite vec_resize_nil.
  induction r as [|r IH]; simpl; [done |]. f_equal; [|done].
  clear IH. induction c as [|c IH]; simpl; [done |]. by f_equal.
Qed.

Lemma wf_replicate (r c : nat) (v : N) :
  wf (mkMatrix (replicate r (replicate c v)) r c).
Proof.
  split; simpl.
  - apply length_replicate.
  - apply Forall_replicate, length_replicate.
Qed.

Lemma elem_replicate (r c : nat) (v : N) i j :
  i < r -> j < c ->
  elem (mkMatrix (replicate r (replicate c v)) r c) i j = Some v.
Proof.
  intros Hi Hj. unfold elem. simpl.
  rewrite (lookup_replicate_2 r (replicate c v) i Hi). simpl.
  by apply lookup_replicate_2.
Qed.

Lemma Matrix_new_eq (r c : nat) :
  (Matrix_new r c : Matrix N) = mkMatrix (replicate r (replicate c zero)) r c.
Proof. unfold Matrix_new. simpl. by rewrite vec_resize_nil. Qed.

Lemma Matrix_fill_eq (r c : nat) (v : N) :
  Matrix_fill r c v = mkMatrix (replicate r (replicate c v)) r c.
Proof.
  pose proof (Matrix_fill_data r c v) as Hd.
  unfold Matrix_fill in *. simpl in *. by rewrite Hd.
Qed.

Lemma wf_new (r c : nat) : wf (Matrix_new r c : Matrix N).
Proof. rewrite Matrix_new_eq. apply wf_replicate. Qed.

Lemma wf_fill (r c : nat) (v : N) : wf (Matrix_fill r c v).
Proof. rewrite Matrix_fill_eq. apply wf_replicate. Qed.

(** C6. For all counts [rows] and [cols], zero included, [Matrix(rows, cols)]
    is a [rows x cols] matrix whose every element is the default value of
    [N], and [Matrix(rows, cols, init)] is a [rows x cols] matrix whose every
    element is [init]. Both satisfy the data-model invariant. *)
Theorem constructors_shape_and_elements (r c : nat) (init : N) :
  (rows (Matrix_new r c : Matrix N) = r /\
   cols (Matrix_new r c : Matrix N) = c /\
   columns (Matrix_new r c : Matrix N) = c /\
   wf (Matrix_new r c : Matrix N) /\
   forall i j, i < r -> j < c ->
     elem (Matrix_new r c : Matrix N) i j = Some zero) /\
  (rows (Matrix_fill r c init) = r /\
   cols (Matrix_fill r c init) = c /\
   columns (Matrix_fill r c init) = c /\
   wf (Matrix_fill r c init) /\
   forall i j, i < r -> j < c ->
     elem (Matrix_fill r c init) i j = Some init).
Proof.
  split.
  - do 3 (split; [done |]). split; [apply wf_new |].
    intros i j Hi Hj. rewrite Matrix_new_eq. by apply elem_replicate.
  - do 3 (split; [done |]). split; [apply wf_fill |].
    intros i j Hi Hj. rewrite Matrix_fill_eq. by apply elem_replicate.
Qed.

End Construction.

Section Transpose.
Context {N : Type} `{Number N} `{Printable N}.
Implicit Types (m a b t : Matrix N) (i j : nat).

(** The write [t[r][c] = v] on a matrix that satisfies the invariant, with
    both indices in range: it succeeds, keeps the shape and the invariant,
    stores [v] and touches no other element. *)
Lemma assign_elem_spec t r c (v : N) :
  wf t -> r < _rows t -> c < _cols t ->
  exists t', assign_elem t r c v = Ok t' /\
    wf t' /\ _rows t' = _rows t /\ _cols t' = _cols t /\
    elem t' r c = Some v /\
    forall r' c', (r', c') <> (r, c) -> elem t' r' c' = elem t r' c'.
Proof.
  intros Hwf Hr Hc. destruct (wf_lookup t r Hwf Hr) as (row & Hrow & Hlen).
  unfold assign_elem, op_index, assert, vec_at.
  destruct (Nat.ltb_spec r (_rows t)); [|lia]. simpl.
  rewrite Hrow. simpl.
  destruct (lookup_lt_is_Some_2 row c) as [x Hx]; [lia |]. rewrite Hx. simpl.
  eexists. split; [done |].
  destruct Hwf as [Hl Hall].
  assert (Hr' : r < length (_data t)) by lia.
  repeat split; simpl.
  - by rewrite length_insert.
  - apply Forall_insert; [done |]. by rewrite length_insert.
  - unfold elem. simpl. rewrite list_lookup_insert_eq by done. simpl.
    apply list_lookup_insert_eq. lia.
  - intros r' c' Hne. unfold elem. simpl.
    destruct (decide (r' = r)) as [-> | Hrne].
    + rewrite list_lookup_insert_eq by done. rewrite Hrow. simpl.
      apply list_lookup_insert_ne. congruence.
    + by rewrite list_lookup_insert_ne.
Qed.

(** [transpose()] on a matrix that satisfies the invariant. *)
Lemma transpose_spec a :
  wf a ->
  exists t, transpose a = Ok t /\
    wf t /\ _rows t = _cols a /\ _cols t = _rows a /\
    forall i j, i < _rows a -> j < _cols a -> elem t j i = elem a i j.
Proof.
  intros Hwf. unfold transpose, rows, cols.
  pose (P := fun i t =>
    wf t /\ _rows t = _cols a /\ _cols t = _rows a /\
    forall i' j, i' < i -> j < _cols a -> elem t j i' = elem a i' j).
  destruct (for_loop_inv P
    (fun i t => for_loop 0 (_cols a) (fun j t =>
       di ← vec_at (_data a) i; v ← vec_at di j; assign_elem t j i v) t)
    (_rows a) 0 (Matrix_new (_cols a) (_rows a))) as (t & Hrun & HP).
  - split; [apply wf_new |]. repeat split; try done. intros; lia.
  - intros i t [_ Hi] (Hwt & Hrt & Hct & Hdone). simpl in Hi.
    pose (Q := fun j t =>
      wf t /\ _rows t = _cols a /\ _cols t = _rows a /\
      (forall i' j', i' < i -> j' < _cols a ->
         elem t j' i' = elem a i' j') /\
      (forall j', j' < j -> elem t j' i = elem a i j')).
    destruct (for_loop_inv Q
      (fun j t => di ← vec_at (_data a) i; v ← vec_at di j;
                  assign_elem t j i v)
      (_cols a) 0 t) as (t' & Hrun & HQ).
    + do 4 (split; [done |]). intros; lia.
    + clear t Hwt Hrt Hct Hdone.
      intros j t [_ Hj] (Hwt & Hrt & Hct & Hprev & Hcur). simpl in Hj.
      destruct (wf_elem a i j Hwf Hi Hj) as [x Hx].
      destruct (read_data a i j x Hx) as (di & -> & Hv). simpl.
      rewrite Hv. simpl.
      destruct (assign_elem_spec t j i x Hwt) as
        (t' & -> & Hwt' & Hrt' & Hct' & Hnew & Hold); [lia | lia |].
      exists t'. split; [done |].
      split; [done |]. do 2 (split; [congruence |]). split.
      * intros i' j' Hi' Hj'. rewrite Hold; [by apply Hprev |].
        intros Heq; simplify_eq; lia.
      * intros j' Hj'. destruct (decide (j' = j)) as [-> | Hne].
        -- by rewrite Hnew, Hx.
        -- rewrite Hold; [apply Hcur; lia |]. intros Heq; simplify_eq; lia.
    + exists t'. split; [done |].
      destruct HQ as (Hwt' & Hrt' & Hct' & Hprev & Hcur).
      do 3 (split; [done |]).
      intros i' j Hi' Hj. destruct (decide (i' = i)) as [-> | Hne].
      * by apply Hcur.
      * apply Hprev; [lia | done].
  - exists t. by split.
Qed.

(** C3. For every matrix [a], [a.transpose()] and its alias [a.T()] return a
    new matrix of shape [cols x rows] with [result[j][i] = a[i][j]] for all
    [i < a.rows()] and [j < a.cols()]; the call leaves [a], and every other
    object, as it was. *)
Theorem transpose_correct a :
  wf a ->
  exists t,
    transpose a = Ok t /\ T a = Ok t /\
    rows t = cols a /\ cols t = rows a /\ wf t /\
    (forall i j, i < rows a -> j < cols a ->
       exists x, elem a i j = Some x /\ elem t j i = Some x) /\
    (forall (h : gmap nat (Matrix N)) l, h !! l = Some a ->
       run (CTranspose l) h = Ok (RMatrix t, h) /\
       run (CT l) h = Ok (RMatrix t, h)).
Proof.
  intros Hwf.
  destruct (transpose_spec a Hwf) as (t & Hrun & Hwt & Hr & Hc & He).
  exists t. unfold T, rows, cols. do 5 (split; [done |]). split.
  - intros i j Hi Hj. destruct (wf_elem a i j Hwf Hi Hj) as [x Hx].
    exists x. split; [done |]. by rewrite He.
  - intros h l Hl. unfold run, load, T. rewrite Hl. simpl.
    by rewrite Hrun.
Qed.

(** C4. For every matrix [a] of shape [r x c], [a.transpose().transpose()]
    has shape [r x c] and the same element as [a] at every position: it is
    the very value of [a]. *)
Theorem transpose_involutive a :
  wf a ->
  exists t t2,
    transpose a = Ok t /\ transpose t = Ok t2 /\
    rows t2 = rows a /\ cols t2 = cols a /\
    (forall i j, elem t2 i j = elem a i j) /\
    t2 = a.
Proof.
  intros Hwf.
  destruct (transpose_spec a Hwf) as (t & Hrun & Hwt & Hr & Hc & He).
  destruct (transpose_spec t Hwt) as (t2 & Hrun2 & Hwt2 & Hr2 & Hc2 & He2).
  assert (Heq : t2 = a).
  { apply wf_ext; try done; try congruence.
    intros i j Hi Hj. rewrite He2 by congruence. apply He; congruence. }
  exists t, t2. subst t2. by repeat split.
Qed.

End Transpose.

Section Addition.
Context {N : Type} `{Number N} `{Printable N}.
Implicit Types (m a b t : Matrix N) (i j : nat).

(** [seq_add] on two matrices of one shape that satisfy the invariant. *)
Lemma seq_add_spec a b :
  wf a -> wf b -> _rows a = _rows b -> _cols a = _cols b ->
  exists r, seq_add a b = Ok r /\
    wf r /\ _rows r = _rows a /\ _cols r = _cols a /\
    forall i j x y, elem a i j = Some x -> elem b i j = Some y ->
      elem r i j = Some (add x y).
Proof.
  intros Hwa Hwb Hrows Hcols. unfold seq_add, rows, cols, assert.
  rewrite Hrows, Hcols, !Nat.eqb_refl. simpl. rewrite <- Hrows, <- Hcols.
  pose (P := fun i t =>
    wf t /\ _rows t = _rows a /\ _cols t = _cols a /\
    forall i' j x y, i' < i -> elem a i' j = Some x -> elem b i' j = Some y ->
      elem t i' j = Some (add x y)).
  destruct (for_loop_inv P
    (fun i result => for_loop 0 (_cols a) (fun x result =>
       di ← vec_at (_data a) i; u ← vec_at di x;
       mj ← op_index b i; v ← vec_at mj x;
       assign_elem result i x (add u v)) result)
    (_rows a) 0 (Matrix_new (_rows a) (_cols a))) as (r & Hrun & HP).
  - split; [apply wf_new |]. do 2 (split; [done |]). intros; lia.
  - intros i t [_ Hi] (Hwt & Hrt & Hct & Hdone). simpl in Hi.
    pose (Q := fun j t =>
      wf t /\ _rows t = _rows a /\ _cols t = _cols a /\
      (forall i' j' x y, i' < i ->
         elem a i' j' = Some x -> elem b i' j' = Some y ->
         elem t i' j' = Some (add x y)) /\
      (forall j' x y, j' < j ->
         elem a i j' = Some x -> elem b i j' = Some y ->
         elem t i j' = Some (add x y))).
    destruct (for_loop_inv Q
      (fun x result =>
         di ← vec_at (_data a) i; u ← vec_at di x;
         mj ← op_index b i; v ← vec_at mj x;
         assign_elem result i x (add u v))
      (_cols a) 0 t) as (t' & Hrun & HQ).
    + do 4 (split; [done |]). intros; lia.
    + clear t Hwt Hrt Hct Hdone.
      intros j t [_ Hj] (Hwt & Hrt & Hct & Hprev & Hcur). simpl in Hj.
      destruct (wf_elem a i j Hwa Hi Hj) as [x Hx].
      destruct (wf_elem b i j Hwb) as [y Hy]; [lia | lia |].
      destruct (read_data a i j x Hx) as (di & -> & Hu). simpl.
      rewrite Hu. simpl.
      destruct (read_index b i j y) as (mj & -> & Hv); [lia | done |]. simpl.
      rewrite Hv. simpl.
      destruct (assign_elem_spec t i j (add x y) Hwt) as
        (t' & -> & Hwt' & Hrt' & Hct' & Hnew & Hold); [lia | lia |].
      exists t'. split; [done |].
      split; [done |]. do 2 (split; [congruence |]). split.
      * intros i' j' x' y' Hi' Hx' Hy'.
        rewrite Hold; [by eapply Hprev |]. intros Heq; simplify_eq; lia.
      * intros j' x' y' Hj' Hx' Hy'.
        destruct (decide (j' = j)) as [-> | Hne].
        -- rewrite Hnew. congruence.
        -- rewrite Hold; [eapply Hcur; [lia | done | done] |].
           intros Heq; simplify_eq; lia.
    + exists t'. split; [done |].
      destruct HQ as (Hwt' & Hrt' & Hct' & Hprev & Hcur).
      do 3 (split; [done |]).
      intros i' j x y Hi' Hx Hy. destruct (decide (i' = i)) as [-> | Hne].
      * destruct (elem_Some_bounds a i j x Hwa Hx) as [_ Hj].
        by eapply Hcur.
      * eapply Hprev; [lia | done | done].
  - exists r. split; [done |].
    destruct HP as (Hwr & Hrr & Hcr & Hall). do 3 (split; [done |]).
    intros i j x y Hx Hy.
    destruct (elem_Some_bounds a i j x Hwa Hx) as [Hi _].
    by eapply Hall.
Qed.

(** C1. For all matrices [a] and [b] of one shape, [a.seq_add(b)] and
    [a + b] return a new matrix of that shape whose [(i,j)] element is
    [a[i][j] + b[i][j]] for all [i < rows] and [j < cols]; the call leaves
    [a], [b] and every other object as they were. *)
Theorem seq_add_correct a b :
  wf a -> wf b -> rows a = rows b -> cols a = cols b ->
  exists r,
    seq_add a b = Ok r /\ op_plus a b = Ok r /\
    rows r = rows a /\ cols r = cols a /\ wf r /\
    (forall i j, i < rows a -> j < cols a ->
       exists x y, elem a i j = Some x /\ elem b i j = Some y /\
                   elem r i j = Some (add x y)) /\
    (forall (h : gmap nat (Matrix N)) la lb,
       h !! la = Some a -> h !! lb = Some b ->
       run (CSeqAdd la lb) h = Ok (RMatrix r, h) /\
       run (CPlus la lb) h = Ok (RMatrix r, h)).
Proof.
  unfold rows, cols. intros Hwa Hwb Hrows Hcols.
  destruct (seq_add_spec a b Hwa Hwb Hrows Hcols)
    as (r & Hrun & Hwr & Hr & Hc & He).
  exists r. unfold op_plus. do 5 (split; [done |]). split.
  - intros i j Hi Hj.
    destruct (wf_elem a i j Hwa Hi Hj) as [x Hx].
    destruct (wf_elem b i j Hwb) as [y Hy]; [lia | lia |].
    exists x, y. do 2 (split; [done |]). by apply He.
  - intros h la lb Hla Hlb. unfold run, load, op_plus.
    rewrite Hla, Hlb. simpl. by rewrite Hrun.
Qed.

End Addition.

Section Equality.
Context {N : Type} `{Number N} `{Printable N}.
Implicit Types (m a b t : Matrix N) (i j : nat).

(** One comparison [if (_data[i][x] != rhs[j][y]) return false;] *)
Lemma op_eq_cell a b i x (u v : N) :
  i < _rows b -> elem a i x = Some u -> elem b i x = Some v ->
  (di ← vec_at (_data a) i; u' ← vec_at di x;
   rj ← op_index b i; v' ← vec_at rj x;
   if neq u' v' then Ok (Some false) else Ok None)
  = (if neq u v then Ok (Some false) else Ok None).
Proof.
  intros Hi Hu Hv.
  destruct (read_data a i x u Hu) as (di & Hdi & Hdx).
  destruct (read_index b i x v Hi Hv) as (rj & Hrj & Hrx).
  rewrite Hdi. simpl. rewrite Hdx. simpl.
  rewrite Hrj. simpl. by rewrite Hrx.
Qed.

(** The scan of row [i] *)
Lemma op_eq_row a b i :
  wf a -> wf b -> _rows a = _rows b -> _cols a = _cols b -> i < _rows a ->
  let scan := for_loop_return 0 (_cols a) (fun x =>
     di ← vec_at (_data a) i; u ← vec_at di x;
     rj ← op_index b i; v ← vec_at rj x;
     if neq u v then Ok (Some false) else Ok None) in
  (scan = Ok None /\
   forall x u v, elem a i x = Some u -> elem b i x = Some v ->
     neq u v = false) \/
  (scan = Ok (Some false) /\
   exists x u v, elem a i x = Some u /\ elem b i x = Some v /\
     neq u v = true).
Proof.
  intros Hwa Hwb Hrows Hcols Hi scan. subst scan.
  match goal with |- context [for_loop_return 0 _ ?f] => set (body := f) end.
  assert (Hcell : forall x, x < _cols a ->
    exists u v, elem a i x = Some u /\ elem b i x = Some v /\
      body x = if neq u v then Ok (Some false) else Ok None).
  { intros x Hx. destruct (wf_elem a i x Hwa Hi Hx) as [u Hu].
    destruct (wf_elem b i x Hwb) as [v Hv]; [lia | lia |].
    exists u, v. do 2 (split; [done |]).
    apply op_eq_cell; [lia | done | done]. }
  destruct (for_loop_return_spec body (_cols a) 0)
    as [[Hrun Hall] | (x & r & Hx & Hbx & Hrun)].
  - intros x [_ Hx]. destruct (Hcell x Hx) as (u & v & _ & _ & ->).
    destruct (neq u v); eauto.
  - left. split; [done |]. intros x u v Hu Hv.
    destruct (elem_Some_bounds a i x u Hwa Hu) as [_ Hx].
    destruct (Hcell x Hx) as (u' & v' & Hu' & Hv' & Hb).
    rewrite Hall in Hb by lia.
    assert (u' = u) by congruence. assert (v' = v) by congruence. subst.
    by destruct (neq u v).
  - right. destruct (Hcell x) as (u & v & Hu & Hv & Hb); [lia |].
    rewrite Hbx in Hb. destruct (neq u v) eqn:Hne; [|done].
    simplify_eq. split; [done |]. by exists x, u, v.
Qed.

(** [operator==] on two matrices of one shape that satisfy the invariant. *)
Lemma op_eq_spec a b :
  wf a -> wf b -> _rows a = _rows b -> _cols a = _cols b ->
  exists e, op_eq a b = Ok e /\
    (e = true <->
     forall i j x y, elem a i j = Some x -> elem b i j = Some y ->
       neq x y = false).
Proof.
  intros Hwa Hwb Hrows Hcols. unfold op_eq, rows, cols, assert.
  rewrite Hrows, Hcols, !Nat.eqb_refl. simpl. rewrite <- Hrows, <- Hcols.
  match goal with |- context [for_loop_return 0 (_rows a) ?f] =>
    set (body := f) end.
  assert (Hrow : forall i, i < _rows a ->
    (body i = Ok None /\
     forall x u v, elem a i x = Some u -> elem b i x = Some v ->
       neq u v = false) \/
    (body i = Ok (Some false) /\
     exists x u v, elem a i x = Some u /\ elem b i x = Some v /\
       neq u v = true)).
  { intros i Hi. by apply op_eq_row. }
  destruct (for_loop_return_spec body (_rows a) 0)
    as [[Hrun Hall] | (i & r & Hi & Hbi & Hrun)].
  - intros i [_ Hi]. destruct (Hrow i Hi) as [[-> _] | [-> _]]; eauto.
  - rewrite Hrun. simpl. exists true. split; [done |]. split; [|done].
    intros _ i j x y Hx Hy.
    destruct (elem_Some_bounds a i j x Hwa Hx) as [Hi _].
    destruct (Hrow i Hi) as [[_ Hcells] | [Hb _]].
    + by eapply Hcells.
    + rewrite Hall in Hb by lia. done.
  - rewrite Hrun. simpl.
    destruct (Hrow i) as [[Hb _] | [Hb (x & u & v & Hu & Hv & Hne)]];
      [lia | congruence |].
    assert (r = false) by congruence. subst r.
    exists false. split; [done |]. split; [done |].
    intros Hall. specialize (Hall i x u v Hu Hv). congruence.
Qed.

(** C5, as amended. For all matrices [a] and [b] of one shape, [a == b]
    returns true iff every pair of corresponding elements compares equal
    (their [!=] is false), and [a != b] returns the negation of [a == b];
    [a == a] returns true for every matrix [a] none of whose elements [x]
    has [x != x]. Both comparisons leave every object as it was. *)
Theorem op_eq_correct a b :
  wf a -> wf b -> rows a = rows b -> cols a = cols b ->
  exists e,
    op_eq a b = Ok e /\ op_neq a b = Ok (negb e) /\
    (e = true <->
     forall i j, i < rows a -> j < cols a ->
       exists x y, elem a i j = Some x /\ elem b i j = Some y /\
                   neq x y = false) /\
    ((forall i j x, elem a i j = Some x -> neq x x = false) ->
     op_eq a a = Ok true /\ op_neq a a = Ok false) /\
    (forall (h : gmap nat (Matrix N)) la lb,
       h !! la = Some a -> h !! lb = Some b ->
       run (CEq la lb) h = Ok (RBool e, h) /\
       run (CNeq la lb) h = Ok (RBool (negb e), h)).
Proof.
  unfold rows, cols. intros Hwa Hwb Hrows Hcols.
  destruct (op_eq_spec a b Hwa Hwb Hrows Hcols) as (e & Hrun & He).
  assert (Hneq : op_neq a b = Ok (negb e)).
  { unfold op_neq. by rewrite Hrun. }
  exists e. do 2 (split; [done |]). split; [|split].
  - rewrite He. split.
    + intros Hall i j Hi Hj.
      destruct (wf_elem a i j Hwa Hi Hj) as [x Hx].
      destruct (wf_elem b i j Hwb) as [y Hy]; [lia | lia |].
      exists x, y. do 2 (split; [done |]). by eapply Hall.
    + intros Hall i j x y Hx Hy.
      destruct (elem_Some_bounds a i j x Hwa Hx) as [Hi Hj].
      destruct (Hall i j Hi Hj) as (x' & y' & Hx' & Hy' & Hxy). congruence.
  - intros Hrefl.
    destruct (op_eq_spec a a Hwa Hwa eq_refl eq_refl) as (e' & Hrun' & He').
    assert (e' = true) as ->.
    { apply He'. intros i j x y Hx Hy.
      assert (y = x) by congruence. subst y. by eapply Hrefl. }
    split; [done |]. unfold op_neq. by rewrite Hrun'.
  - intros h la lb Hla Hlb. unfold run, load. rewrite Hla, Hlb. simpl.
    by rewrite Hrun, Hneq.
Qed.

End Equality.

Section Preconditions.
Context {N : Type} `{Number N}.
Implicit Types (m a b t : Matrix N) (i j : nat) (h : gmap nat (Matrix N)).

Lemma shape_test_false a b :
  rows a <> rows b \/ cols a <> cols b ->
  (rows a =? rows b) && (cols a =? cols b) = false.
Proof.
  intros [Hne | Hne]; apply andb_false_iff; [left | right];
    by apply Nat.eqb_neq.
Qed.

Lemma shape_test_true a b :
  (rows a =? rows b) && (cols a =? cols b) = true ->
  _rows a = _rows b /\ _cols a = _cols b.
Proof.
  unfold rows, cols. intros [Hr Hc]%andb_true_iff.
  split; by apply Nat.eqb_eq.
Qed.

Lemma wf_store_lookup h l m : wf_store h -> h !! l = Some m -> wf m.
Proof. intros Hwf Hl. exact (Hwf l m Hl). Qed.

End Preconditions.

Ltac with_shape_test x y :=
  destruct ((rows x =? rows y) && (cols x =? cols y)) eqn:Hs;
  [apply shape_test_true in Hs as [Hr Hc] |].

Section Errors.
Context {N : Type} `{Number N} `{Printable N}.
Implicit Types (m a b t : Matrix N) (i j : nat) (h : gmap nat (Matrix N)).

Lemma seq_add_mismatch a b :
  (rows a =? rows b) && (cols a =? cols b) = false -> seq_add a b = Abort.
Proof.
  unfold seq_add, assert. intros Hs.
  destruct (rows a =? rows b); [|done]. simpl in *. by rewrite Hs.
Qed.

Lemma op_eq_mismatch a b :
  (rows a =? rows b) && (cols a =? cols b) = false -> op_eq a b = Abort.
Proof.
  unfold op_eq, assert. intros Hs.
  destruct (rows a =? rows b); [|done]. simpl in *. by rewrite Hs.
Qed.

Lemma op_index_out_of_range a idx :
  (idx <? rows a) = false -> op_index a idx = Abort.
Proof. unfold op_index, assert, rows. by intros ->. Qed.

Lemma op_index_in_range a idx :
  wf a -> (idx <? rows a) = true -> exists r, op_index a idx = Ok r.
Proof.
  unfold rows. intros Hwf Hlt. apply Nat.ltb_lt in Hlt.
  destruct (wf_lookup a idx Hwf Hlt) as (r & Hr & _).
  exists r. unfold op_index, assert, vec_at.
  destruct (Nat.ltb_spec idx (_rows a)); [|lia]. simpl. by rewrite Hr.
Qed.

(** Every call on live objects that satisfy the invariant either completes,
    when its stated precondition holds, or is stopped by an assertion, when
    it does not. *)
Lemma run_total h (c : call N) :
  wf_store h -> live c h ->
  if pre c h then exists r h', run c h = Ok (r, h') else run c h = Abort.
Proof.
  intros Hwf Hlive. unfold live in Hlive.
  destruct c; simpl in Hlive;
    repeat match goal with
    | Hl : Forall _ (_ :: _) |- _ =>
        apply Forall_cons in Hl as [[? ?] Hl]
    end; clear Hlive;
    repeat match goal with
    | Hl : _ !! ?l = Some ?x |- _ =>
        lazymatch goal with
        | _ : wf x |- _ => fail
        | _ => pose proof (wf_store_lookup _ l x Hwf Hl)
        end
    end;
    unfold pre, same_shape, row_in_range, run, load;
    repeat match goal with
    | Hl : _ !! _ = Some _ |- _ => rewrite Hl; clear Hl
    end; cbn [mbind outcome_bind]; eauto.
  - (* CTranspose *)
    destruct (transpose_spec x) as (t & -> & _); [done |]. simpl; eauto.
  - (* CT *)
    unfold T. destruct (transpose_spec x) as (t & -> & _); [done |].
    simpl; eauto.
  - (* CSeqAdd *)
    with_shape_test x x0; [|by rewrite seq_add_mismatch].
    destruct (seq_add_spec x x0) as (r & -> & _); try done. simpl; eauto.
  - (* CPlus *)
    unfold op_plus.
    with_shape_test x x0; [|by rewrite seq_add_mismatch].
    destruct (seq_add_spec x x0) as (r & -> & _); try done. simpl; eauto.
  - (* CIndex *)
    destruct (idx <? rows x) eqn:Hk; [|by rewrite op_index_out_of_range].
    destruct (op_index_in_range x idx) as (r & ->); try done. simpl; eauto.
  - (* CIndexConst *)
    destruct (idx <? rows x) eqn:Hk; [|by rewrite op_index_out_of_range].
    destruct (op_index_in_range x idx) as (r & ->); try done. simpl; eauto.
  - (* CAssign *)
    destruct (_ =? _); eauto.
  - (* CEq *)
    with_shape_test x x0; [|by rewrite op_eq_mismatch].
    destruct (op_eq_spec x x0) as (r & -> & _); try done. simpl; eauto.
  - (* CNeq *)
    unfold op_neq.
    with_shape_test x x0; [|by rewrite op_eq_mismatch].
    destruct (op_eq_spec x x0) as (r & -> & _); try done. simpl; eauto.
Qed.

End Errors.

Section Formatting.
Context {N : Type} `{Number N} `{Printable N}.
Implicit Types (m a b t : Matrix N) (i j : nat) (out : string).

Lemma str_app_cons (c : ascii) (s1 s2 : string) :
  String c s1 +:+ s2 = String c (s1 +:+ s2).
Proof. reflexivity. Qed.

Lemma str_app_nil_l (s : string) : "" +:+ s = s.
Proof. reflexivity. Qed.

Lemma str_app_assoc (s1 s2 s3 : string) :
  (s1 +:+ s2) +:+ s3 = s1 +:+ (s2 +:+ s3).
Proof.
  induction s1 as [|c s1 IH]; [done |]. rewrite !str_app_cons. by f_equal.
Qed.

Lemma str_app_nil_r (s : string) : s +:+ "" = s.
Proof.
  induction s as [|c s IH]; [done |]. rewrite str_app_cons. by f_equal.
Qed.

Lemma str_app_eq_nil (s1 s2 : string) : s1 +:+ s2 = "" -> s1 = "" /\ s2 = "".
Proof. destruct s1; [done |]. rewrite str_app_cons. discriminate. Qed.

Lemma str_length_app (s1 s2 : string) :
  String.length (s1 +:+ s2) = String.length s1 + String.length s2.
Proof.
  induction s1 as [|c s1 IH]; [done |]. rewrite str_app_cons. simpl.
  by f_equal.
Qed.

(** The inner loop: the elements of one row *)
Lemma print_row out (r : list N) :
  foldl (fun out x => (out +:+ show x) +:+ sp) out r
  = out +:+ cat (map (fun x => show x +:+ sp) r).
Proof.
  revert out. induction r as [|x r IH]; intros out; simpl.
  - by rewrite str_app_nil_r.
  - rewrite IH. by rewrite !str_app_assoc.
Qed.

(** The outer loop: the stream afterwards is the stream before followed by
    the dump. *)
Lemma print_dump out m : print out m = out +:+ dump m.
Proof.
  unfold print, dump. generalize (_data m). clear m. intros d.
  revert out. induction d as [|r d IH]; intros out; simpl.
  - by rewrite str_app_nil_r.
  - rewrite IH, print_row. unfold row_line. by rewrite !str_app_assoc.
Qed.

Lemma row_line_nonempty (r : list N) : row_line r <> "".
Proof.
  unfold row_line. intros [_ Hnl]%str_app_eq_nil. discriminate.
Qed.

Lemma dump_empty_iff m : dump m = "" <-> _data m = [].
Proof.
  unfold dump. destruct (_data m) as [|r d]; simpl; [done |]. split.
  - intros [Hr _]%str_app_eq_nil. by apply row_line_nonempty in Hr.
  - discriminate.
Qed.

Lemma wf_data_nil m : wf m -> (_data m = [] <-> _rows m = 0).
Proof.
  intros [Hlen _]. rewrite <- Hlen. split.
  - by intros ->.
  - apply nil_length_inv.
Qed.

Lemma wf_no_columns m :
  wf m -> _cols m = 0 -> _data m = replicate (_rows m) [].
Proof.
  intros [Hlen Hall] Hc. rewrite <- Hlen. rewrite Hc in Hall.
  clear Hlen. revert Hall. generalize (_data m). intros d Hall.
  induction Hall as [|r d Hr _ IH]; simpl; [done |].
  apply nil_length_inv in Hr. subst r. by f_equal.
Qed.

(** C7. Streaming a matrix appends to the stream, for each row in order, the
    elements of the row in column order, each followed by exactly one space,
    and then a newline; the matrix and every other object are left as they
    were; a [0 x 0] matrix adds nothing to the stream. *)
Theorem print_correct out m :
  print out m
    = out +:+ cat (map (fun r => cat (map (fun x => show x +:+ sp) r) +:+ nl)
                       (_data m)) /\
  print out m = out +:+ dump m /\
  (forall (h : gmap nat (Matrix N)) l, h !! l = Some m ->
     run (CPrint out l) h = Ok (RStream (out +:+ dump m), h)) /\
  print "" (Matrix_new 0 0 : Matrix N) = "" /\
  (wf m -> rows m = 0 -> cols m = 0 -> print "" m = "").
Proof.
  split; [apply print_dump |]. split; [apply print_dump |].
  split; [|split].
  - intros h l Hl. unfold run, load. rewrite Hl. simpl.
    by rewrite print_dump.
  - done.
  - intros Hwf Hr _. rewrite print_dump, str_app_nil_l.
    apply dump_empty_iff. by apply wf_data_nil.
Qed.

(** C10. For every [r > 0], streaming a matrix of shape [r x 0] writes
    exactly [r] newline characters and nothing else, so its dump is not
    empty; the dump of a matrix is empty exactly when the matrix has zero
    rows, whatever its column count. *)
Theorem print_blank_lines m :
  wf m ->
  (cols m = 0 ->
     print "" m = cat (replicate (rows m) nl) /\
     String.length (print "" m) = rows m /\
     (0 < rows m -> print "" m <> "")) /\
  (print "" m = "" <-> rows m = 0).
Proof.
  intros Hwf. unfold rows, cols.
  assert (Hiff : print "" m = "" <-> _rows m = 0).
  { rewrite print_dump, str_app_nil_l, dump_empty_iff.
    by apply wf_data_nil. }
  split; [|done].
  intros Hc.
  assert (Hp : print "" m = cat (replicate (_rows m) nl)).
  { rewrite print_dump, str_app_nil_l. unfold dump.
    rewrite (wf_no_columns m Hwf Hc).
    generalize (_rows m). intros n.
    induction n as [|n IH]; simpl; [done |]. by rewrite <- IH. }
  split; [done |]. split.
  - rewrite Hp. generalize (_rows m). intros n.
    induction n as [|n IH]; simpl; [done |].
    rewrite str_length_app. simpl. by f_equal.
  - intros Hpos Hemp. apply Hiff in Hemp. lia.
Qed.

End Formatting.

Section Invariant.
Context {N : Type} `{Number N} `{Printable N}.
Implicit Types (m a b t : Matrix N) (i j : nat) (h : gmap nat (Matrix N)).

Lemma wf_copy m : wf m -> wf (mkMatrix (_data m) (_rows m) (_cols m)).
Proof. by intros [? ?]. Qed.

Ltac run_inv Hrun :=
  unfold run, load in Hrun;
  repeat match type of Hrun with
    | context [?h !! ?l] =>
        is_var h; destruct (h !! l) eqn:?; cbn [mbind outcome_bind] in Hrun;
        try discriminate
    end.

Ltac same_store :=
  split; [| split]; [intros _; split; [done |] | by eauto | done].

(** What a completed call leaves behind. *)
Lemma run_effect h (c : call N) (r : result N) h' :
  wf_store h -> run c h = Ok (r, h') ->
  (is_move c = false ->
     wf_store h' /\ forall m, r = RMatrix m -> wf m) /\
  (forall l m, h !! l = Some m -> assigns c l = false ->
     exists m', h' !! l = Some m' /\ rows m' = rows m /\ cols m' = cols m) /\
  (forall this src, c = CAssign this src ->
     exists s m', h !! src = Some s /\ h' !! this = Some m' /\
       rows m' = rows s /\ cols m' = cols s /\ _data m' = _data s).
Proof.
  intros Hwf Hrun.
  destruct c; run_inv Hrun;
    repeat match goal with
    | Hl : h !! ?l = Some ?x |- _ =>
        lazymatch goal with
        | _ : wf x |- _ => fail
        | _ => pose proof (wf_store_lookup _ l x Hwf Hl)
        end
    end.
  - (* CNew *) simplify_eq. same_store. intros ? [= <-]. apply wf_new.
  - (* CFill *) simplify_eq. same_store. intros ? [= <-]. apply wf_fill.
  - (* CCopy *) simplify_eq. same_store. intros ? [= <-]. by apply wf_copy.
  - (* CMove *)
    unfold Matrix_move in Hrun. simplify_eq.
    split; [by intros [=] |]. split; [|done].
    intros l x Hl _. destruct (decide (mat = l)) as [-> | Hne].
    + rewrite lookup_insert_eq. eexists. split; [done |].
      assert (x = m) by congruence. by subst.
    + rewrite lookup_insert_ne by done. eauto.
  - (* CRows *) simplify_eq. same_store. by intros ? [=].
  - (* CCols *) simplify_eq. same_store. by intros ? [=].
  - (* CColumns *) simplify_eq. same_store. by intros ? [=].
  - (* CTranspose *)
    destruct (transpose_spec m) as (t & Ht & Hwt & _); [done |].
    rewrite Ht in Hrun. cbn [mbind outcome_bind] in Hrun. simplify_eq. same_store. by intros ? [= <-].
  - (* CT *)
    unfold T in Hrun.
    destruct (transpose_spec m) as (t & Ht & Hwt & _); [done |].
    rewrite Ht in Hrun. cbn [mbind outcome_bind] in Hrun. simplify_eq. same_store. by intros ? [= <-].
  - (* CSeqAdd *)
    match type of Hrun with context [seq_add ?x ?y] =>
      destruct (seq_add x y) as [z| |] eqn:Hadd;
      cbn [mbind outcome_bind] in Hrun; simplify_eq;
      with_shape_test x y; [| by rewrite seq_add_mismatch in Hadd];
      destruct (seq_add_spec x y) as (z' & Hz & Hwz & _); try done end.
    same_store. intros ? [= <-]. congruence.
  - (* CPlus *)
    unfold op_plus in Hrun.
    match type of Hrun with context [seq_add ?x ?y] =>
      destruct (seq_add x y) as [z| |] eqn:Hadd;
      cbn [mbind outcome_bind] in Hrun; simplify_eq;
      with_shape_test x y; [| by rewrite seq_add_mismatch in Hadd];
      destruct (seq_add_spec x y) as (z' & Hz & Hwz & _); try done end.
    same_store. intros ? [= <-]. congruence.
  - (* CIndex *)
    destruct (op_index m idx); cbn [mbind outcome_bind] in Hrun; simplify_eq. same_store. by intros ? [=].
  - (* CIndexConst *)
    destruct (op_index m idx); cbn [mbind outcome_bind] in Hrun; simplify_eq. same_store. by intros ? [=].
  - (* CAssign, both objects exist *)
    destruct (Nat.eqb_spec this m) as [-> | Hne]; simplify_eq.
    + split; [| split]; [intros _; split; [done |] | by eauto |].
      * by intros ? [=].
      * intros ? ? [= <- <-]. eauto 10.
    + split; [| split].
      * intros _. split; [|by intros ? [=]].
        apply map_Forall_insert_2; [by apply wf_copy | done].
      * intros l x Hl Hna. simpl in Hna. apply Nat.eqb_neq in Hna.
        rewrite lookup_insert_ne by done. eauto.
      * intros ? ? [= <- <-]. do 2 eexists. split; [done |].
        rewrite lookup_insert_eq. by split.
  - (* CAssign, the source is dangling *)
    destruct (Nat.eqb_spec this m) as [-> | Hne]; simplify_eq.
  - (* CAssign, the target is dangling *)
    by destruct (this =? m).
  - (* CEq *)
    match type of Hrun with context [op_eq ?x ?y] =>
      destruct (op_eq x y) end;
      cbn [mbind outcome_bind] in Hrun; simplify_eq. same_store. by intros ? [=].
  - (* CNeq *)
    match type of Hrun with context [op_neq ?x ?y] =>
      destruct (op_neq x y) end;
      cbn [mbind outcome_bind] in Hrun; simplify_eq. same_store. by intros ? [=].
  - (* CPrint *) simplify_eq. same_store. by intros ? [=].
Qed.

End Invariant.

Section Policy.
Context {N : Type} `{Number N} `{Printable N}.
Implicit Types (m a b t : Matrix N) (i j : nat) (h : gmap nat (Matrix N)).

(** C2. A shape mismatch on [seq_add], [operator+], [operator==] (and
    [operator!=], which calls it), and a row index [idx >= rows()] given to
    [operator[]], each stop the program by an assertion. On live objects
    that satisfy the data-model invariant a call of the public interface has
    only two outcomes: it completes when its stated precondition holds, and
    it is stopped by an assertion when it does not; there is no third,
    recoverable, outcome. *)
Theorem error_policy :
  (forall a b, rows a <> rows b \/ cols a <> cols b ->
     seq_add a b = Abort /\ op_plus a b = Abort /\
     op_eq a b = Abort /\ op_neq a b = Abort) /\
  (forall a idx, rows a <= idx -> op_index a idx = Abort) /\
  (forall h (c : call N), wf_store h -> live c h ->
     (pre c h = true -> exists r h', run c h = Ok (r, h')) /\
     (pre c h = false -> run c h = Abort) /\
     run c h <> Undefined).
Proof.
  split; [| split].
  - intros a b Hne. apply shape_test_false in Hne.
    unfold op_plus, op_neq.
    by rewrite (seq_add_mismatch a b Hne), (op_eq_mismatch a b Hne).
  - intros a idx Hge. apply op_index_out_of_range. apply Nat.ltb_ge. done.
  - intros h c Hwf Hlive. pose proof (run_total h c Hwf Hlive) as Ht.
    destruct (pre c h).
    + destruct Ht as (r & h' & ->). split; [eauto |]. by split.
    + rewrite Ht. split; [done |]. by split.
Qed.

(** C8, as amended. Every matrix produced by a constructor, by copy
    construction, by copy-assignment, by [transpose] or by [seq_add] /
    [operator+] holds exactly [rows()] rows of exactly [cols()] elements,
    and such calls leave every object of the store in that state. No call
    other than a copy-assignment to an object changes the [rows()] or
    [cols()] of that object; a copy-assignment gives its target the rows,
    the columns and the data of its source. *)
Theorem invariant_preserved h (c : call N) :
  wf_store h -> live c h -> pre c h = true ->
  exists r h', run c h = Ok (r, h') /\
    (is_move c = false ->
       wf_store h' /\ forall m, r = RMatrix m -> wf m) /\
    (forall l m, h !! l = Some m -> assigns c l = false ->
       exists m', h' !! l = Some m' /\
         rows m' = rows m /\ cols m' = cols m) /\
    (forall this src, c = CAssign this src ->
       exists s m', h !! src = Some s /\ h' !! this = Some m' /\
         rows m' = rows s /\ cols m' = cols s /\ _data m' = _data s).
Proof.
  intros Hwf Hlive Hpre. pose proof (run_total h c Hwf Hlive) as Ht.
  rewrite Hpre in Ht. destruct Ht as (r & h' & Hrun).
  exists r, h'. split; [done |]. by apply run_effect.
Qed.

End Policy.

(** ** Concrete runs *)

Lemma has_char_app (c : ascii) (s1 s2 : string) :
  has_char c (s1 +:+ s2) = has_char c s1 || has_char c s2.
Proof.
  induction s1 as [|d s1 IH]; [done |]. rewrite str_app_cons. simpl.
  rewrite IH. by rewrite orb_assoc.
Qed.

Lemma wf_two_shapes : wf_store two_shapes.
Proof.
  apply map_Forall_insert_2; [split; [reflexivity | repeat constructor] |].
  apply map_Forall_insert_2; [split; [reflexivity | repeat constructor] |].
  apply map_Forall_empty.
Qed.

(** C9, as amended. The demonstration program constructs three [2 x 2]
    integer matrices filled with 4, 8 and 12, adds the first two, and writes
    the result of comparing the sum with the third ([1]), then the dump of
    the first operand, then, after [Result:], the dump of the sum and, after
    [C:], the dump of the third matrix, each dump followed by an empty line.
    The second operand of the addition is not written. It returns 0. *)
Theorem main_output :
  exists res,
    seq_add m4 m8 = Ok res /\ op_eq res m12 = Ok true /\
    main = Ok (0%Z, main_stdout) /\
    main_stdout =
      cat [ show_bool true; nl;
            dump m4; nl;
            "Result:"; nl; dump res; nl;
            "C:"; nl; dump m12; nl ] /\
    has_char "8" main_stdout = false.
Proof.
  exists m12. split; [by vm_compute |]. split; [by vm_compute |].
  split; [by vm_compute |]. split; by vm_compute.
Qed.

(** C9, the claim as stated fails: the dump of the second operand of the
    addition, the matrix filled with 8, occurs nowhere in what the program
    writes. *)
Lemma main_omits_second_operand :
  main = Ok (0%Z, main_stdout) /\
  dump m8 = cat ["8 8 "; nl; "8 8 "; nl] /\
  forall before after, main_stdout <> before +:+ dump m8 +:+ after.
Proof.
  split; [by vm_compute |]. split; [by vm_compute |].
  intros before after Heq.
  assert (Hc : has_char "8" main_stdout = true).
  { rewrite Heq, !has_char_app.
    replace (has_char "8" (dump m8)) with true by (by vm_compute).
    by rewrite orb_true_r. }
  by vm_compute in Hc.
Qed.

(** C5, the claim as stated fails: a matrix of [double] that holds a NaN
    satisfies the invariant and compares unequal to itself. *)
Lemma nan_matrix_differs_from_itself :
  wf nan_matrix /\
  op_eq nan_matrix nan_matrix = Ok false /\
  op_neq nan_matrix nan_matrix = Ok true /\
  ~ (forall a : Matrix float, wf a -> op_eq a a = Ok true).
Proof.
  assert (Hwf : wf nan_matrix) by apply wf_fill.
  assert (Heq : op_eq nan_matrix nan_matrix = Ok false) by (by vm_compute).
  split; [done |]. split; [done |]. split; [by vm_compute |].
  intros Hall. specialize (Hall nan_matrix Hwf). congruence.
Qed.

(** C8, the claim as stated fails: copy-assigning a [2 x 3] matrix to a
    [1 x 1] matrix changes the [rows()] and the [cols()] of the target. *)
Lemma assignment_changes_shape :
  wf_store two_shapes /\
  rows <$> two_shapes !! 0 = Some 1 /\
  cols <$> two_shapes !! 0 = Some 1 /\
  exists h', run (CAssign 0 1) two_shapes = Ok (RRef 0, h') /\
    rows <$> h' !! 0 = Some 2 /\
    cols <$> h' !! 0 = Some 3.
Proof.
  split; [apply wf_two_shapes |]. split; [by vm_compute |].
  split; [by vm_compute |].
  eexists. split; [by vm_compute |]. split; by vm_compute.
Qed.

(** ** The theorems at concrete matrices *)

Lemma seq_add_correct_witness :
  wf m4 /\ wf m8 /\ rows m4 = rows m8 /\ cols m4 = cols m8 /\
  exists r,
    seq_add m4 m8 = Ok r /\ op_plus m4 m8 = Ok r /\
    rows r = rows m4 /\ cols r = cols m4 /\ wf r /\
    (forall i j, i < rows m4 -> j < cols m4 ->
       exists x y, elem m4 i j = Some x /\ elem m8 i j = Some y /\
                   elem r i j = Some (add x y)) /\
    (forall (h : gmap nat (Matrix Z)) la lb,
       h !! la = Some m4 -> h !! lb = Some m8 ->
       run (CSeqAdd la lb) h = Ok (RMatrix r, h) /\
       run (CPlus la lb) h = Ok (RMatrix r, h)).
Proof.
  assert (Ha : wf m4) by (split; [reflexivity | repeat constructor]).
  assert (Hb : wf m8) by (split; [reflexivity | repeat constructor]).
  split; [exact Ha |]. split; [exact Hb |].
  split; [reflexivity |]. split; [reflexivity |].
  exact (seq_add_correct m4 m8 Ha Hb eq_refl eq_refl).
Defined.

Lemma transpose_correct_witness :
  wf m4 /\
  exists t,
    transpose m4 = Ok t /\ T m4 = Ok t /\
    rows t = cols m4 /\ cols t = rows m4 /\ wf t /\
    (forall i j, i < rows m4 -> j < cols m4 ->
       exists x, elem m4 i j = Some x /\ elem t j i = Some x) /\
    (forall (h : gmap nat (Matrix Z)) l, h !! l = Some m4 ->
       run (CTranspose l) h = Ok (RMatrix t, h) /\
       run (CT l) h = Ok (RMatrix t, h)).
Proof.
  assert (Ha : wf m4) by (split; [reflexivity | repeat constructor]).
  split; [exact Ha |]. exact (transpose_correct m4 Ha).
Defined.

Lemma transpose_involutive_witness :
  wf m8 /\
  exists t t2,
    transpose m8 = Ok t /\ transpose t = Ok t2 /\
    rows t2 = rows m8 /\ cols t2 = cols m8 /\
    (forall i j, elem t2 i j = elem m8 i j) /\
    t2 = m8.
Proof.
  assert (Ha : wf m8) by (split; [reflexivity | repeat constructor]).
  split; [exact Ha |]. exact (transpose_involutive m8 Ha).
Defined.

Lemma op_eq_correct_witness :
  wf m12 /\ wf m8 /\ rows m12 = rows m8 /\ cols m12 = cols m8 /\
  exists e,
    op_eq m12 m8 = Ok e /\ op_neq m12 m8 = Ok (negb e) /\
    (e = true <->
     forall i j, i < rows m12 -> j < cols m12 ->
       exists x y, elem m12 i j = Some x /\ elem m8 i j = Some y /\
                   neq x y = false) /\
    ((forall i j x, elem m12 i j = Some x -> neq x x = false) ->
     op_eq m12 m12 = Ok true /\ op_neq m12 m12 = Ok false) /\
    (forall (h : gmap nat (Matrix Z)) la lb,
       h !! la = Some m12 -> h !! lb = Some m8 ->
       run (CEq la lb) h = Ok (RBool e, h) /\
       run (CNeq la lb) h = Ok (RBool (negb e), h)).
Proof.
  assert (Ha : wf m12) by (split; [reflexivity | repeat constructor]).
  assert (Hb : wf m8) by (split; [reflexivity | repeat constructor]).
  split; [exact Ha |]. split; [exact Hb |].
  split; [reflexivity |]. split; [reflexivity |].
  exact (op_eq_correct m12 m8 Ha Hb eq_refl eq_refl).
Defined.

Lemma invariant_preserved_witness :
  wf_store two_shapes /\ live (CAssign 0 1) two_shapes /\
  pre (CAssign 0 1) two_shapes = true /\
  exists r h', run (CAssign 0 1) two_shapes = Ok (r, h') /\
    (is_move (CAssign 0 1 : call Z) = false ->
       wf_store h' /\ forall m, r = RMatrix m -> wf m) /\
    (forall l m, two_shapes !! l = Some m ->
       assigns (CAssign 0 1 : call Z) l = false ->
       exists m', h' !! l = Some m' /\
         rows m' = rows m /\ cols m' = cols m) /\
    (forall this src, (CAssign 0 1 : call Z) = CAssign this src ->
       exists s m', two_shapes !! src = Some s /\ h' !! this = Some m' /\
         rows m' = rows s /\ cols m' = cols s /\ _data m' = _data s).
Proof.
  assert (Hwf : wf_store two_shapes).
  { apply map_Forall_insert_2; [split; [reflexivity | repeat constructor] |].
    apply map_Forall_insert_2; [split; [reflexivity | repeat constructor] |].
    apply map_Forall_empty. }
  assert (Hlive : live (CAssign 0 1) two_shapes).
  { repeat constructor; eexists; vm_compute; reflexivity. }
  split; [exact Hwf |]. split; [exact Hlive |]. split; [reflexivity |].
  exact (invariant_preserved two_shapes (CAssign 0 1) Hwf Hlive eq_refl).
Defined.

Lemma print_blank_lines_witness :
  wf m30 /\
  (cols m30 = 0 ->
     print "" m30 = cat (replicate (rows m30) nl) /\
     String.length (print "" m30) = rows m30 /\
     (0 < rows m30 -> print "" m30 <> "")) /\
  (print "" m30 = "" <-> rows m30 = 0).
Proof.
  assert (Ha : wf m30) by (split; [reflexivity | repeat constructor]).
  split; [exact Ha |]. exact (print_blank_lines m30 Ha).
Defined.

(** * Further properties of the class *)

(** ** Arithmetic of [int] used at concrete matrices *)

Lemma int_add_comm (x y : Z) : add x y = add y x.
Proof. simpl. by rewrite Z.add_comm. Qed.

Lemma int_add_assoc (x y z : Z) : add (add x y) z = add x (add y z).
Proof.
  simpl. unfold int_wrap. f_equal.
  replace (((x + y + 2147483648) `mod` 4294967296 - 2147483648 + z
            + 2147483648)%Z)
    with (((x + y + 2147483648) `mod` 4294967296 + z)%Z) by lia.
  replace ((x + ((y + z + 2147483648) `mod` 4294967296 - 2147483648)
            + 2147483648)%Z)
    with ((x + (y + z + 2147483648) `mod` 4294967296)%Z) by lia.
  rewrite Zplus_mod_idemp_l, Zplus_mod_idemp_r. f_equal. lia.
Qed.

Lemma int_neq_exact (x y : Z) : neq x y = false <-> x = y.
Proof.
  simpl. rewrite negb_false_iff. apply Z.eqb_eq.
Qed.

Section Algebra.
Context {N : Type} `{Number N}.
Implicit Types (m a b c t : Matrix N) (i j : nat).

(** X1. Addition is commutative when [+] of the element type is: on
    matrices that satisfy the invariant, [a.seq_add(b)] and [b.seq_add(a)]
    have the same outcome (the same matrix for equal shapes, the same
    assertion failure otherwise), and so have [a + b] and [b + a]. *)
Theorem seq_add_comm a b :
  wf a -> wf b -> (forall x y : N, add x y = add y x) ->
  seq_add a b = seq_add b a /\ op_plus a b = op_plus b a /\
  (rows a = rows b -> cols a = cols b ->
     exists r, seq_add a b = Ok r /\ seq_add b a = Ok r).
Proof.
  intros Hwa Hwb Hcomm.
  assert (Hsame : rows a = rows b -> cols a = cols b ->
            exists r, seq_add a b = Ok r /\ seq_add b a = Ok r).
  { unfold rows, cols. intros Hr Hc.
    destruct (seq_add_spec a b Hwa Hwb Hr Hc)
      as (r1 & Hrun1 & Hw1 & Hr1 & Hc1 & He1).
    destruct (seq_add_spec b a Hwb Hwa (eq_sym Hr) (eq_sym Hc))
      as (r2 & Hrun2 & Hw2 & Hr2 & Hc2 & He2).
    assert (r1 = r2) as <-.
    { apply wf_ext; try done; try congruence.
      intros i j Hi Hj.
      destruct (wf_elem a i j Hwa) as [x Hx]; [lia | lia |].
      destruct (wf_elem b i j Hwb) as [y Hy]; [lia | lia |].
      rewrite (He1 i j x y Hx Hy), (He2 i j y x Hy Hx). by rewrite Hcomm. }
    by exists r1. }
  assert (Heq : seq_add a b = seq_add b a).
  { with_shape_test a b.
    - destruct Hsame as (r & -> & ->); done.
    - rewrite (seq_add_mismatch a b Hs). symmetry. apply seq_add_mismatch.
      by rewrite (Nat.eqb_sym (rows b)), (Nat.eqb_sym (cols b)). }
  unfold op_plus. by repeat split.
Qed.

(** X2. Addition is associative when [+] of the element type is: for three
    matrices of one shape, [(a + b) + c] and [a + (b + c)] are the same
    matrix. *)
Theorem seq_add_assoc a b c :
  wf a -> wf b -> wf c ->
  rows a = rows b -> cols a = cols b -> rows b = rows c -> cols b = cols c ->
  (forall x y z : N, add (add x y) z = add x (add y z)) ->
  exists ab bc r,
    seq_add a b = Ok ab /\ seq_add b c = Ok bc /\
    seq_add ab c = Ok r /\ seq_add a bc = Ok r.
Proof.
  unfold rows, cols. intros Hwa Hwb Hwc Hr1 Hc1 Hr2 Hc2 Hassoc.
  destruct (seq_add_spec a b Hwa Hwb Hr1 Hc1)
    as (ab & Hab & Hwab & Hrab & Hcab & Heab).
  destruct (seq_add_spec b c Hwb Hwc Hr2 Hc2)
    as (bc & Hbc & Hwbc & Hrbc & Hcbc & Hebc).
  destruct (seq_add_spec ab c Hwab Hwc) as (r & Hl & Hwl & Hrl & Hcl & Hel);
    [congruence | congruence |].
  destruct (seq_add_spec a bc Hwa Hwbc) as (r' & Hr & Hwr & Hrr & Hcr & Her);
    [congruence | congruence |].
  assert (r = r') as <-.
  { apply wf_ext; try done; try congruence.
    intros i j Hi Hj.
    destruct (wf_elem a i j Hwa) as [x Hx]; [lia | lia |].
    destruct (wf_elem b i j Hwb) as [y Hy]; [lia | lia |].
    destruct (wf_elem c i j Hwc) as [z Hz]; [lia | lia |].
    rewrite (Hel i j (add x y) z (Heab i j x y Hx Hy) Hz).
    rewrite (Her i j x (add y z) Hx (Hebc i j y z Hy Hz)).
    by rewrite Hassoc. }
  by exists ab, bc, r.
Qed.

(** X3. The matrix of default values built by [Matrix(rows, cols)] is
    neutral for addition, on both sides, on every matrix whose elements [x]
    satisfy [x + N() = x] and [N() + x = x]. *)
Theorem seq_add_zero a :
  wf a ->
  (forall i j x, elem a i j = Some x -> add x zero = x /\ add zero x = x) ->
  seq_add a (Matrix_new (rows a) (cols a)) = Ok a /\
  seq_add (Matrix_new (rows a) (cols a)) a = Ok a.
Proof.
  intros Hwa Hneutral. unfold rows, cols.
  pose proof (wf_new (N:=N) (_rows a) (_cols a)) as Hwz.
  assert (Hz : forall i j, i < _rows a -> j < _cols a ->
            elem (Matrix_new (_rows a) (_cols a) : Matrix N) i j = Some zero).
  { intros i j Hi Hj. rewrite Matrix_new_eq. by apply elem_replicate. }
  split.
  - destruct (seq_add_spec a _ Hwa Hwz eq_refl eq_refl)
      as (r & -> & Hwr & Hrr & Hcr & Her).
    f_equal. apply wf_ext; try done.
    intros i j Hi Hj.
    destruct (wf_elem a i j Hwa) as [x Hx]; [lia | lia |].
    rewrite (Her i j x zero Hx); [| apply Hz; lia].
    rewrite Hx. f_equal. by eapply Hneutral.
  - destruct (seq_add_spec _ a Hwz Hwa eq_refl eq_refl)
      as (r & -> & Hwr & Hrr & Hcr & Her).
    f_equal. apply wf_ext; try done.
    intros i j Hi Hj. simpl in Hrr, Hcr.
    destruct (wf_elem a i j Hwa) as [x Hx]; [lia | lia |].
    rewrite (Her i j zero x); [| apply Hz; lia | done].
    rewrite Hx. f_equal. by eapply Hneutral.
Qed.

(** X4. Transposition distributes over addition: for two matrices of one
    shape, the transpose of [a + b] is the sum of the transposes. *)
Theorem transpose_seq_add a b :
  wf a -> wf b -> rows a = rows b -> cols a = cols b ->
  exists s ta tb r,
    seq_add a b = Ok s /\ transpose a = Ok ta /\ transpose b = Ok tb /\
    transpose s = Ok r /\ seq_add ta tb = Ok r.
Proof.
  unfold rows, cols. intros Hwa Hwb Hr Hc.
  destruct (seq_add_spec a b Hwa Hwb Hr Hc)
    as (s & Hs & Hws & Hrs & Hcs & Hes).
  destruct (transpose_spec a Hwa) as (ta & Hta & Hwta & Hrta & Hcta & Heta).
  destruct (transpose_spec b Hwb) as (tb & Htb & Hwtb & Hrtb & Hctb & Hetb).
  destruct (transpose_spec s Hws) as (r & Hts & Hwr & Hrr & Hcr & Her).
  destruct (seq_add_spec ta tb Hwta Hwtb)
    as (r' & Hsum & Hwr' & Hrr' & Hcr' & Her'); [congruence | congruence |].
  assert (r = r') as <-.
  { apply wf_ext; try done; try congruence.
    intros j i Hj Hi.
    destruct (wf_elem a i j Hwa) as [x Hx]; [lia | lia |].
    destruct (wf_elem b i j Hwb) as [y Hy]; [lia | lia |].
    rewrite Her by lia. rewrite (Hes i j x y Hx Hy).
    symmetry. apply Her'.
    - rewrite Heta by lia. done.
    - rewrite Hetb by lia. done. }
  by exists s, ta, tb, r.
Qed.

End Algebra.

Section Comparison.
Context {N : Type} `{Number N}.
Implicit Types (m a b c t : Matrix N) (i j : nat).

(** X5. Where [!=] of the element type is exact ([x != y] is false only for
    identical values, as for the integral types), [a == b] on matrices of
    one shape returns true exactly when [a] and [b] are the same matrix
    value, and [a != b] exactly when they are not. *)
Theorem op_eq_decides a b :
  wf a -> wf b -> rows a = rows b -> cols a = cols b ->
  (forall x y : N, neq x y = false <-> x = y) ->
  exists e, op_eq a b = Ok e /\ op_neq a b = Ok (negb e) /\
    (e = true <-> a = b).
Proof.
  unfold rows, cols. intros Hwa Hwb Hr Hc Hexact.
  destruct (op_eq_spec a b Hwa Hwb Hr Hc) as (e & Hrun & He).
  exists e. split; [done |]. split; [unfold op_neq; by rewrite Hrun |].
  rewrite He. split.
  - intros Hall. apply wf_ext; try done. intros i j Hi Hj.
    destruct (wf_elem a i j Hwa Hi Hj) as [x Hx].
    destruct (wf_elem b i j Hwb) as [y Hy]; [lia | lia |].
    rewrite Hx, Hy. f_equal. apply Hexact. by eapply Hall.
  - intros <- i j x y Hx Hy. apply Hexact. congruence.
Qed.

(** X6. [operator==] is symmetric when [!=] of the element type is: on
    matrices that satisfy the invariant, [a == b] and [b == a] have the same
    outcome, and so have [a != b] and [b != a]. *)
Theorem op_eq_sym a b :
  wf a -> wf b -> (forall x y : N, neq x y = neq y x) ->
  op_eq a b = op_eq b a /\ op_neq a b = op_neq b a.
Proof.
  intros Hwa Hwb Hsym.
  assert (Heq : op_eq a b = op_eq b a).
  { with_shape_test a b.
    - destruct (op_eq_spec a b Hwa Hwb Hr Hc) as (e1 & -> & He1).
      destruct (op_eq_spec b a Hwb Hwa (eq_sym Hr) (eq_sym Hc))
        as (e2 & -> & He2).
      f_equal. apply eq_true_iff_eq. rewrite He1, He2.
      split; intros Hall i j x y Hx Hy; rewrite Hsym; by eapply Hall.
    - rewrite (op_eq_mismatch a b Hs). symmetry. apply op_eq_mismatch.
      by rewrite (Nat.eqb_sym (rows b)), (Nat.eqb_sym (cols b)). }
  split; [done |]. unfold op_neq. by rewrite Heq.
Qed.

(** X7. [operator==] is transitive when equality of elements is: if
    [a == b] and [b == c] return true for matrices of one shape, so does
    [a == c]. *)
Theorem op_eq_trans a b c :
  wf a -> wf b -> wf c ->
  rows a = rows b -> cols a = cols b -> rows b = rows c -> cols b = cols c ->
  (forall x y z : N, neq x y = false -> neq y z = false -> neq x z = false) ->
  op_eq a b = Ok true -> op_eq b c = Ok true -> op_eq a c = Ok true.
Proof.
  unfold rows, cols. intros Hwa Hwb Hwc Hr1 Hc1 Hr2 Hc2 Htrans Hab Hbc.
  destruct (op_eq_spec a b Hwa Hwb Hr1 Hc1) as (e1 & Hrun1 & He1).
  destruct (op_eq_spec b c Hwb Hwc Hr2 Hc2) as (e2 & Hrun2 & He2).
  destruct (op_eq_spec a c Hwa Hwc) as (e3 & -> & He3);
    [congruence | congruence |].
  assert (e1 = true) by congruence. assert (e2 = true) by congruence.
  subst e1 e2. f_equal. apply He3. intros i j x z Hx Hz.
  destruct (elem_Some_bounds a i j x Hwa Hx) as [Hi Hj].
  destruct (wf_elem b i j Hwb) as [y Hy]; [lia | lia |].
  apply (Htrans x y z).
  - by eapply (proj1 He1).
  - by eapply (proj1 He2).
Qed.

End Comparison.

(** ** Loops that do nothing, and loops that fail at once *)

Lemma for_loop_skip {St} (body : nat -> St -> outcome St) (n lo : nat)
    (s : St) :
  (forall i s', lo <= i < lo + n -> body i s' = Ok s') ->
  for_loop lo n body s = Ok s.
Proof.
  intros Hbody.
  destruct (for_loop_inv (fun _ s' => s' = s) body n lo s)
    as (s' & Hrun & ->); [done | | done].
  intros i s' Hi ->. exists s. split; [by apply Hbody | done].
Qed.

Lemma for_loop_return_none {R} (body : nat -> outcome (option R))
    (n lo : nat) :
  (forall i, lo <= i < lo + n -> body i = Ok None) ->
  for_loop_return lo n body = Ok None.
Proof.
  revert lo. induction n as [|n IH]; intros lo Hbody; simpl; [done |].
  rewrite Hbody by lia. simpl. apply IH. intros i Hi. apply Hbody. lia.
Qed.

Section Access.
Context {N : Type} `{Number N}.
Implicit Types (m a b t : Matrix N) (i j : nat).

(** [m[i][j]] in terms of the stored element *)
Lemma read_elem_elem m i j :
  read_elem m i j =
    if i <? _rows m
    then match elem m i j with Some x => Ok x | None => Undefined end
    else Abort.
Proof.
  unfold read_elem, op_index, assert, elem, vec_at.
  destruct (i <? _rows m); [|done]. simpl.
  by destruct (_data m !! i).
Qed.

Lemma elem_None_cols m i j :
  wf m -> i < _rows m -> _cols m <= j -> elem m i j = None.
Proof.
  intros Hwf Hi Hj. destruct (wf_lookup m i Hwf Hi) as (r & Hr & Hlen).
  unfold elem. rewrite Hr. simpl. apply lookup_ge_None_2. lia.
Qed.

(** X8. Writing [t[r][c] = v] with both indices in range and reading the
    matrix back through [operator[]]: the write succeeds, keeps the shape
    and the invariant, [t[r][c]] then reads [v], and every other access
    [t[r'][c']], in range or not, has the outcome it had before. *)
Theorem write_then_read t r c (v : N) :
  wf t -> r < rows t -> c < cols t ->
  exists t', assign_elem t r c v = Ok t' /\
    wf t' /\ rows t' = rows t /\ cols t' = cols t /\
    read_elem t' r c = Ok v /\
    forall r' c', (r', c') <> (r, c) ->
      read_elem t' r' c' = read_elem t r' c'.
Proof.
  unfold rows, cols. intros Hwf Hr Hc.
  destruct (assign_elem_spec t r c v Hwf Hr Hc)
    as (t' & Hrun & Hwt & Hrt & Hct & Hnew & Hold).
  exists t'. do 4 (split; [done |]). split.
  - rewrite read_elem_elem, Hrt, Hnew.
    by destruct (Nat.ltb_spec r (_rows t)); [| lia].
  - intros r' c' Hne. by rewrite !read_elem_elem, Hrt, Hold.
Qed.

(** X9. What the two-step indexing checks. A row index [i >= rows()] stops
    the program at the assertion of [operator[]], for reads and for writes,
    whatever the column. A row index in range with a column index
    [j >= cols()] is not caught: the access to the row vector is out of
    range (undefined behaviour). With both in range the read succeeds, and
    [operator[]] returns the stored row, of [cols()] elements. *)
Theorem index_bounds m i j (v : N) :
  wf m ->
  (rows m <= i ->
     op_index m i = Abort /\ read_elem m i j = Abort /\
     assign_elem m i j v = Abort) /\
  (i < rows m -> cols m <= j ->
     read_elem m i j = Undefined /\ assign_elem m i j v = Undefined) /\
  (i < rows m ->
     exists row, op_index m i = Ok row /\ _data m !! i = Some row /\
       length row = cols m /\
       (j < cols m -> exists x, read_elem m i j = Ok x)).
Proof.
  unfold rows, cols. intros Hwf. split; [| split].
  - intros Hi. unfold read_elem, assign_elem, op_index, assert.
    by destruct (Nat.ltb_spec i (_rows m)); [lia |].
  - intros Hi Hj. destruct (wf_lookup m i Hwf Hi) as (row & Hrow & Hlen).
    unfold read_elem, assign_elem, op_index, assert, vec_at.
    destruct (Nat.ltb_spec i (_rows m)); [| lia]. simpl.
    rewrite Hrow. simpl. rewrite lookup_ge_None_2 by lia. done.
  - intros Hi. destruct (wf_lookup m i Hwf Hi) as (row & Hrow & Hlen).
    exists row. unfold read_elem, op_index, assert, vec_at.
    destruct (Nat.ltb_spec i (_rows m)); [| lia]. simpl.
    rewrite Hrow. simpl. do 3 (split; [done |]).
    intros Hj. destruct (lookup_lt_is_Some_2 row j) as [x Hx]; [lia |].
    exists x. by rewrite Hx.
Qed.

(** X10. With zero rows or zero columns no element is ever accessed:
    whatever the data of the operands, [transpose] returns the matrix of
    the swapped shape built by [Matrix(cols, rows)], and for a second
    operand of the same shape [seq_add] returns the matrix built by
    [Matrix(rows, cols)], [==] returns true and [!=] returns false. *)
Theorem empty_shape_operations a b :
  rows a = 0 \/ cols a = 0 ->
  transpose a = Ok (Matrix_new (cols a) (rows a)) /\
  (rows a = rows b -> cols a = cols b ->
     seq_add a b = Ok (Matrix_new (rows a) (cols a)) /\
     op_eq a b = Ok true /\ op_neq a b = Ok false).
Proof.
  intros Hempty.
  assert (Hin : forall i, i < rows a -> cols a = 0).
  { intros i Hi. destruct Hempty; [lia | done]. }
  split.
  - unfold transpose. apply for_loop_skip. intros i t [_ Hi]. simpl in Hi.
    by rewrite (Hin i Hi).
  - intros Hr Hc.
    assert (Heq : op_eq a b = Ok true).
    { unfold op_eq, assert. rewrite <- Hr, <- Hc, !Nat.eqb_refl. simpl.
      rewrite for_loop_return_none; [done |].
      intros i [_ Hi]. simpl in Hi. by rewrite (Hin i Hi). }
    split; [| split; [done | unfold op_neq; by rewrite Heq]].
    unfold seq_add, assert. rewrite <- Hr, <- Hc, !Nat.eqb_refl. simpl.
    apply for_loop_skip. intros i t [_ Hi]. simpl in Hi.
    by rewrite (Hin i Hi).
Qed.

(** X11. The move constructor. The new matrix has the shape and the data of
    its source. The source keeps its [rows()] and [cols()] but holds no row
    any more, so it satisfies the data-model invariant only if it had zero
    rows; streaming it writes nothing; [operator[]] with any index below
    [rows()] passes the assertion and then reads out of range; and, when it
    has at least one row and one column, so do [transpose], [seq_add] and
    [==] on it. *)
Theorem move_leaves_source_empty m :
  fst (Matrix_move m) = m /\
  rows (snd (Matrix_move m)) = rows m /\
  cols (snd (Matrix_move m)) = cols m /\
  _data (snd (Matrix_move m)) = [] /\
  (wf (snd (Matrix_move m)) <-> rows m = 0) /\
  (forall idx, idx < rows m ->
     op_index (snd (Matrix_move m)) idx = Undefined) /\
  (0 < rows m -> 0 < cols m ->
     transpose (snd (Matrix_move m)) = Undefined /\
     seq_add (snd (Matrix_move m)) (snd (Matrix_move m)) = Undefined /\
     op_eq (snd (Matrix_move m)) (snd (Matrix_move m)) = Undefined).
Proof.
  destruct m as [d r c]. unfold rows, cols. simpl.
  do 4 (split; [done |]). split; [| split].
  - unfold wf. simpl. split; [by intros [<- _] | by intros ->].
  - intros idx Hidx. unfold op_index, assert, vec_at. simpl.
    by destruct (Nat.ltb_spec idx r); [| lia].
  - intros Hr Hc. destruct r as [|r]; [lia |]. destruct c as [|c]; [lia |].
    unfold transpose, seq_add, op_eq, assert, rows, cols. simpl.
    by rewrite !Nat.eqb_refl.
Qed.

End Access.

Section Assignment.
Context {N : Type} `{Number N} `{Printable N}.
Implicit Types (m a b t : Matrix N) (i j : nat) (h : gmap nat (Matrix N)).



End Assignment.

Section Filled.
Context {N : Type} `{Number N} `{Printable N}.
Implicit Types (m a b t : Matrix N) (i j : nat).

Lemma elem_fill (r c : nat) (v : N) i j :
  i < r -> j < c -> elem (Matrix_fill r c v) i j = Some v.
Proof. intros Hi Hj. rewrite Matrix_fill_eq. by apply elem_replicate. Qed.

(** X13. The transpose of the [r x c] matrix filled with [v] is the [c x r]
    matrix filled with [v]; the matrix built by [Matrix(r, c)] is the one
    filled with the default value, and its transpose is the matrix built by
    [Matrix(c, r)]. *)
Theorem transpose_fill (r c : nat) (v : N) :
  transpose (Matrix_fill r c v) = Ok (Matrix_fill c r v) /\
  (Matrix_new r c : Matrix N) = Matrix_fill r c zero /\
  transpose (Matrix_new r c : Matrix N) = Ok (Matrix_new c r).
Proof.
  assert (Ht : forall u : N,
    transpose (Matrix_fill r c u) = Ok (Matrix_fill c r u)).
  { intros u.
    destruct (transpose_spec (Matrix_fill r c u) (wf_fill r c u))
      as (t & -> & Hwt & Hrt & Hct & Het).
    f_equal. apply wf_ext; try done; [apply wf_fill |].
    simpl in Hrt, Hct. intros j i Hj Hi.
    rewrite Het by (simpl; lia).
    rewrite !elem_fill by lia. done. }
  assert (Hnew : forall r' c', (Matrix_new r' c' : Matrix N)
                               = Matrix_fill r' c' zero).
  { intros r' c'. by rewrite Matrix_new_eq, Matrix_fill_eq. }
  split; [apply Ht |]. split; [apply Hnew |]. by rewrite !Hnew, Ht.
Qed.

(** X14. Adding the [r x c] matrices filled with [u] and with [v] gives the
    [r x c] matrix filled with [u + v]; comparing them with [==] returns
    true when the shape has no element and otherwise the negation of
    [u != v]. *)
Theorem seq_add_fill (r c : nat) (u v : N) :
  seq_add (Matrix_fill r c u) (Matrix_fill r c v)
    = Ok (Matrix_fill r c (add u v)) /\
  op_eq (Matrix_fill r c u) (Matrix_fill r c v)
    = Ok (if (r =? 0) || (c =? 0) then true else negb (neq u v)).
Proof.
  split.
  - destruct (seq_add_spec (Matrix_fill r c u) (Matrix_fill r c v)
                (wf_fill r c u) (wf_fill r c v) eq_refl eq_refl)
      as (s & -> & Hws & Hrs & Hcs & Hes).
    f_equal. apply wf_ext; try done; [apply wf_fill |].
    simpl in Hrs, Hcs. intros i j Hi Hj.
    rewrite (Hes i j u v) by (apply elem_fill; lia).
    rewrite elem_fill by lia. done.
  - destruct (op_eq_spec (Matrix_fill r c u) (Matrix_fill r c v)
                (wf_fill r c u) (wf_fill r c v) eq_refl eq_refl)
      as (e & -> & He).
    f_equal. apply eq_true_iff_eq. rewrite He. clear He.
    destruct (Nat.eqb_spec r 0) as [-> | Hr]; simpl.
    { split; [done |]. intros _ i j x y Hx _.
      apply elem_Some_bounds in Hx as [Hi _]; [| apply wf_fill].
      simpl in Hi. lia. }
    destruct (Nat.eqb_spec c 0) as [-> | Hc]; simpl.
    { split; [done |]. intros _ i j x y Hx _.
      apply elem_Some_bounds in Hx as [_ Hj]; [| apply wf_fill].
      simpl in Hj. lia. }
    rewrite negb_true_iff. split.
    + intros Hall. apply (Hall 0 0); apply elem_fill; lia.
    + intros Hne i j x y Hx Hy.
      destruct (elem_Some_bounds _ i j x (wf_fill r c u) Hx) as [Hi Hj].
      simpl in Hi, Hj. rewrite elem_fill in Hx, Hy by done. congruence.
Qed.

(** X15. The dump of the [r x c] matrix filled with [v] is [r] equal lines,
    each made of [c] copies of the text of [v] followed by a space, and
    closed by a newline. *)
Theorem dump_fill (out : string) (r c : nat) (v : N) :
  print out (Matrix_fill r c v)
    = out +:+ cat (replicate r (cat (replicate c (show v +:+ sp)) +:+ nl)).
Proof.
  rewrite print_dump. f_equal. unfold dump. rewrite Matrix_fill_data.
  f_equal. rewrite fmap_replicate. f_equal.
  unfold row_line. by rewrite fmap_replicate.
Qed.

(** X16. Comparison commutes with transposition: for two matrices of one
    shape, [a.transpose() == b.transpose()] returns what [a == b] returns. *)
Theorem op_eq_transpose a b :
  wf a -> wf b -> rows a = rows b -> cols a = cols b ->
  exists ta tb e,
    transpose a = Ok ta /\ transpose b = Ok tb /\
    op_eq a b = Ok e /\ op_eq ta tb = Ok e.
Proof.
  unfold rows, cols. intros Hwa Hwb Hr Hc.
  destruct (transpose_spec a Hwa) as (ta & Hta & Hwta & Hrta & Hcta & Heta).
  destruct (transpose_spec b Hwb) as (tb & Htb & Hwtb & Hrtb & Hctb & Hetb).
  destruct (op_eq_spec a b Hwa Hwb Hr Hc) as (e & He & Hiff).
  destruct (op_eq_spec ta tb Hwta Hwtb) as (e' & He' & Hiff');
    [congruence | congruence |].
  assert (e' = e) as ->.
  { apply eq_true_iff_eq. rewrite Hiff, Hiff'. split.
    - intros Hall i j x y Hx Hy.
      destruct (elem_Some_bounds a i j x Hwa Hx) as [Hi Hj].
      apply (Hall j i).
      + by rewrite Heta.
      + rewrite Hetb by lia. done.
    - intros Hall j i x y Hx Hy.
      destruct (elem_Some_bounds ta j i x Hwta Hx) as [Hj Hi].
      apply (Hall i j).
      + rewrite <- Heta by lia. done.
      + rewrite <- Hetb by lia. done. }
  by exists ta, tb, e.
Qed.

End Filled.

(** ** The further properties at concrete matrices *)

Lemma int_neq_sym (x y : Z) : neq x y = neq y x.
Proof. simpl. by rewrite Z.eqb_sym. Qed.

Lemma int_neq_trans (x y z : Z) :
  neq x y = false -> neq y z = false -> neq x z = false.
Proof. rewrite !int_neq_exact. congruence. Qed.


Lemma seq_add_comm_witness :
  wf m4 /\ wf m8 /\ (forall x y : Z, add x y = add y x) /\
  seq_add m4 m8 = seq_add m8 m4 /\ op_plus m4 m8 = op_plus m8 m4 /\
  (rows m4 = rows m8 -> cols m4 = cols m8 ->
     exists r, seq_add m4 m8 = Ok r /\ seq_add m8 m4 = Ok r).
Proof.
  assert (Ha : wf m4) by (split; [reflexivity | repeat constructor]).
  assert (Hb : wf m8) by (split; [reflexivity | repeat constructor]).
  split; [exact Ha |]. split; [exact Hb |]. split; [exact int_add_comm |].
  exact (seq_add_comm m4 m8 Ha Hb int_add_comm).
Defined.

Lemma seq_add_assoc_witness :
  wf m4 /\ wf m8 /\ wf m12 /\
  rows m4 = rows m8 /\ cols m4 = cols m8 /\
  rows m8 = rows m12 /\ cols m8 = cols m12 /\
  (forall x y z : Z, add (add x y) z = add x (add y z)) /\
  exists ab bc r,
    seq_add m4 m8 = Ok ab /\ seq_add m8 m12 = Ok bc /\
    seq_add ab m12 = Ok r /\ seq_add m4 bc = Ok r.
Proof.
  assert (Ha : wf m4) by (split; [reflexivity | repeat constructor]).
  assert (Hb : wf m8) by (split; [reflexivity | repeat constructor]).
  assert (Hc : wf m12) by (split; [reflexivity | repeat constructor]).
  split; [exact Ha |]. split; [exact Hb |]. split; [exact Hc |].
  do 4 (split; [reflexivity |]). split; [exact int_add_assoc |].
  exact (seq_add_assoc m4 m8 m12 Ha Hb Hc eq_refl eq_refl eq_refl eq_refl
           int_add_assoc).
Defined.

Lemma seq_add_zero_witness :
  wf m4 /\
  (forall i j x, elem m4 i j = Some x ->
     add x zero = x /\ add zero x = x) /\
  seq_add m4 (Matrix_new (rows m4) (cols m4)) = Ok m4 /\
  seq_add (Matrix_new (rows m4) (cols m4)) m4 = Ok m4.
Proof.
  assert (Ha : wf m4) by (split; [reflexivity | repeat constructor]).
  assert (Hn : forall i j x, elem m4 i j = Some x ->
             add x zero = x /\ add zero x = x).
  { intros [|[|i]] [|[|j]] x Hx; vm_compute in Hx; try discriminate;
      injection Hx as <-; split; reflexivity. }
  split; [exact Ha |]. split; [exact Hn |].
  exact (seq_add_zero m4 Ha Hn).
Defined.

Lemma transpose_seq_add_witness :
  wf m4 /\ wf m8 /\ rows m4 = rows m8 /\ cols m4 = cols m8 /\
  exists s ta tb r,
    seq_add m4 m8 = Ok s /\ transpose m4 = Ok ta /\ transpose m8 = Ok tb /\
    transpose s = Ok r /\ seq_add ta tb = Ok r.
Proof.
  assert (Ha : wf m4) by (split; [reflexivity | repeat constructor]).
  assert (Hb : wf m8) by (split; [reflexivity | repeat constructor]).
  split; [exact Ha |]. split; [exact Hb |]. do 2 (split; [reflexivity |]).
  exact (transpose_seq_add m4 m8 Ha Hb eq_refl eq_refl).
Defined.

Lemma op_eq_decides_witness :
  wf m12 /\ wf m8 /\ rows m12 = rows m8 /\ cols m12 = cols m8 /\
  (forall x y : Z, neq x y = false <-> x = y) /\
  exists e, op_eq m12 m8 = Ok e /\ op_neq m12 m8 = Ok (negb e) /\
    (e = true <-> m12 = m8).
Proof.
  assert (Ha : wf m12) by (split; [reflexivity | repeat constructor]).
  assert (Hb : wf m8) by (split; [reflexivity | repeat constructor]).
  split; [exact Ha |]. split; [exact Hb |]. do 2 (split; [reflexivity |]).
  split; [exact int_neq_exact |].
  exact (op_eq_decides m12 m8 Ha Hb eq_refl eq_refl int_neq_exact).
Defined.

Lemma op_eq_sym_witness :
  wf m4 /\ wf m8 /\ (forall x y : Z, neq x y = neq y x) /\
  op_eq m4 m8 = op_eq m8 m4 /\ op_neq m4 m8 = op_neq m8 m4.
Proof.
  assert (Ha : wf m4) by (split; [reflexivity | repeat constructor]).
  assert (Hb : wf m8) by (split; [reflexivity | repeat constructor]).
  split; [exact Ha |]. split; [exact Hb |]. split; [exact int_neq_sym |].
  exact (op_eq_sym m4 m8 Ha Hb int_neq_sym).
Defined.

Lemma op_eq_trans_witness :
  wf m12 /\
  rows m12 = rows m12 /\ cols m12 = cols m12 /\
  (forall x y z : Z,
     neq x y = false -> neq y z = false -> neq x z = false) /\
  op_eq m12 m12 = Ok true /\
  op_eq m12 m12 = Ok true.
Proof.
  assert (Ha : wf m12) by (split; [reflexivity | repeat constructor]).
  assert (He : op_eq m12 m12 = Ok true) by (vm_compute; reflexivity).
  split; [exact Ha |]. do 2 (split; [reflexivity |]).
  split; [exact int_neq_trans |]. split; [exact He |].
  exact (op_eq_trans m12 m12 m12 Ha Ha Ha eq_refl eq_refl eq_refl eq_refl
           int_neq_trans He He).
Defined.

Lemma write_then_read_witness :
  wf m4 /\ 0 < rows m4 /\ 1 < cols m4 /\
  exists t', assign_elem m4 0 1 7%Z = Ok t' /\
    wf t' /\ rows t' = rows m4 /\ cols t' = cols m4 /\
    read_elem t' 0 1 = Ok 7%Z /\
    forall r' c', (r', c') <> (0, 1) ->
      read_elem t' r' c' = read_elem m4 r' c'.
Proof.
  assert (Ha : wf m4) by (split; [reflexivity | repeat constructor]).
  assert (Hr : 0 < rows m4) by (vm_compute; lia).
  assert (Hc : 1 < cols m4) by (vm_compute; lia).
  split; [exact Ha |]. split; [exact Hr |]. split; [exact Hc |].
  exact (write_then_read m4 0 1 7%Z Ha Hr Hc).
Defined.

Lemma index_bounds_witness :
  wf m4 /\
  (rows m4 <= 1 ->
     op_index m4 1 = Abort /\ read_elem m4 1 5 = Abort /\
     assign_elem m4 1 5 7%Z = Abort) /\
  (1 < rows m4 -> cols m4 <= 5 ->
     read_elem m4 1 5 = Undefined /\ assign_elem m4 1 5 7%Z = Undefined) /\
  (1 < rows m4 ->
     exists row, op_index m4 1 = Ok row /\ _data m4 !! 1 = Some row /\
       length row = cols m4 /\
       (5 < cols m4 -> exists x, read_elem m4 1 5 = Ok x)).
Proof.
  assert (Ha : wf m4) by (split; [reflexivity | repeat constructor]).
  split; [exact Ha |]. exact (index_bounds m4 1 5 7%Z Ha).
Defined.

Lemma empty_shape_operations_witness :
  (rows m30 = 0 \/ cols m30 = 0) /\
  transpose m30 = Ok (Matrix_new (cols m30) (rows m30)) /\
  (rows m30 = rows m30 -> cols m30 = cols m30 ->
     seq_add m30 m30 = Ok (Matrix_new (rows m30) (cols m30)) /\
     op_eq m30 m30 = Ok true /\ op_neq m30 m30 = Ok false).
Proof.
  assert (He : rows m30 = 0 \/ cols m30 = 0) by (right; reflexivity).
  split; [exact He |]. exact (empty_shape_operations m30 m30 He).
Defined.


Lemma op_eq_transpose_witness :
  wf m4 /\ wf m8 /\ rows m4 = rows m8 /\ cols m4 = cols m8 /\
  exists ta tb e,
    transpose m4 = Ok ta /\ transpose m8 = Ok tb /\
    op_eq m4 m8 = Ok e /\ op_eq ta tb = Ok e.
Proof.
  assert (Ha : wf m4) by (split; [reflexivity | repeat constructor]).
  assert (Hb : wf m8) by (split; [reflexivity | repeat constructor]).
  split; [exact Ha |]. split; [exact Hb |]. do 2 (split; [reflexivity |]).
  exact (op_eq_transpose m4 m8 Ha Hb eq_refl eq_refl).
Defined.
